(** * SimpleVector: a shallow embedding of simple_vector.h

    The container [SimpleVector<Type>] keeps an owned array [items_]
    together with the two counters [size_] and [capacity_].  The embedding
    follows the header member by member:

    - [size_t] values are numbers in [N]; arithmetic that the header performs
      on them wraps at [2^64] and the wrap is written out;
    - an owned array is the list of its allocated slots, a null array the
      empty list; reading or writing a slot outside the allocated array is
      undefined behaviour and is reported as such;
    - iterators ([Type*]) are slot offsets relative to [items_.Get()], kept
      in [Z] because [Erase] accepts positions on either side of the array;
    - the algorithms of <algorithm> used by the header are written as the
      element-by-element loops of their reference implementations.

    - an argument passed as [const Type&] or [Type&&] is a reference: it
      designates an object outside the container's array or a slot of that
      array, and is read where the header reads it.

    The allocator is assumed to succeed; a moved-from element keeps its
    value, as it does for scalar element types. *)

From stdpp Require Import base numbers list option gmap strings.

(** ** size_t arithmetic *)

Module size_t.

Definition modulus : N := (2 ^ 64)%N.

Definition wrap (n : N) : N := (n `mod` modulus)%N.

(** [a * b] on [size_t]. *)
Definition mul (a b : N) : N := wrap (a * b).

(** [a++] on [size_t]. *)
Definition incr (a : N) : N := wrap (a + 1).

(** [a--] on [size_t]: zero wraps to [2^64 - 1]. *)
Definition decr (a : N) : N := wrap (a + modulus - 1).

Definition in_range (a : N) : Prop := (a < modulus)%N.

End size_t.

(** ** The owned array *)

Module ArrayPtr.
Section ArrayPtr.
Context {T : Type}.

(** What a default-initialised slot of a fresh array holds: slot [i] of an
    array of [n] slots holds [uninit n i]. *)
Variable uninit : N -> nat -> T.

(** Modelled from the spec: array_ptr.h is not among the sources.
    [ArrayPtr(size)] allocates exactly [size] slots ("heap-allocated
    contiguous storage of capacity slots"); their contents are
    "unspecified (default-valued or stale)"; a request for zero slots
    leaves the array unallocated. *)
Definition new (size : N) : list T := uninit size <$> seq 0 (N.to_nat size).

(** Modelled from the spec: array_ptr.h is not among the sources.
    Reading slot [i] through the raw pointer; outside the allocated slots
    the access is undefined. *)
Definition load (a : list T) (i : nat) : option T := a !! i.

(** Modelled from the spec: array_ptr.h is not among the sources.
    Writing slot [i] through the raw pointer; outside the allocated slots
    the access is undefined. *)
Definition store (a : list T) (i : nat) (x : T) : option (list T) :=
  if decide (i < length a)%nat then Some (<[i:=x]> a) else None.

(** Modelled from the spec: array_ptr.h is not among the sources.
    [a.swap(b)] "exchanges buffer ownership": the result is the pair
    (new [a], new [b]). *)
Definition swap (a b : list T) : list T * list T := (b, a).

(** Modelled from the spec: array_ptr.h is not among the sources.
    [this = std::move(other)] "transfers buffer ownership" and leaves the
    source without a buffer; the result is (new [this], new [other]). *)
Definition move_assign (this other : list T) : list T * list T := (other, []).

End ArrayPtr.
End ArrayPtr.

(** ** The algorithms of <algorithm> used by the header

    A range [first, last) of an array is given by the offsets of its two
    ends; the loops run [last - first] times and are undefined when
    [last] lies before [first]. *)

Module std.
Section algorithms.
Context {T : Type}.

(** [while (first != last) *d_first++ = *first++;] from [src] into the
    distinct array [dst]. *)
Fixpoint copy_loop (src : list T) (first n : nat) (dst : list T) (d_first : nat)
  : option (list T) :=
  match n with
  | O => Some dst
  | S n' =>
      x ← ArrayPtr.load src first;
      dst' ← ArrayPtr.store dst d_first x;
      copy_loop src (S first) n' dst' (S d_first)
  end.

(** [std::copy(first, last, d_first)], source and destination in
    different arrays. *)
Definition copy (src : list T) (first last : nat) (dst : list T) (d_first : nat)
  : option (list T) :=
  if decide (first <= last)%nat then copy_loop src first (last - first) dst d_first
  else None.

(** [std::move(first, last, d_first)], source and destination in
    different arrays. *)
Definition move (src : list T) (first last : nat) (dst : list T) (d_first : nat)
  : option (list T) :=
  copy src first last dst d_first.

(** [while (first != last) *d_first++ = std::move( *first++ );] with both
    ranges in the array [a]. *)
Fixpoint move_within_loop (a : list T) (first n d_first : nat) : option (list T) :=
  match n with
  | O => Some a
  | S n' =>
      x ← ArrayPtr.load a first;
      a' ← ArrayPtr.store a d_first x;
      move_within_loop a' (S first) n' (S d_first)
  end.

(** [std::move(first, last, d_first)] with both ranges in the array [a]. *)
Definition move_within (a : list T) (first last d_first : nat) : option (list T) :=
  if decide (first <= last)%nat then move_within_loop a first (last - first) d_first
  else None.

(** [while (first != last) *--d_last = *--last;] with both ranges in
    the array [a]; [last] is [first + n]. *)
Fixpoint copy_backward_loop (a : list T) (first n d_last : nat) : option (list T) :=
  match n with
  | O => Some a
  | S n' =>
      x ← ArrayPtr.load a (first + n');
      match d_last with
      | O => None
      | S d_last' =>
          a' ← ArrayPtr.store a d_last' x;
          copy_backward_loop a' first n' d_last'
      end
  end.

(** [std::copy_backward(first, last, d_last)] within the array [a]. *)
Definition copy_backward (a : list T) (first last d_last : nat) : option (list T) :=
  if decide (first <= last)%nat then copy_backward_loop a first (last - first) d_last
  else None.

(** [std::move_backward(first, last, d_last)] within the array [a]. *)
Definition move_backward (a : list T) (first last d_last : nat) : option (list T) :=
  copy_backward a first last d_last.

(** [for (; first != last; ++first) *first = value;] *)
Fixpoint fill_loop (a : list T) (first n : nat) (value : T) : option (list T) :=
  match n with
  | O => Some a
  | S n' =>
      a' ← ArrayPtr.store a first value;
      fill_loop a' (S first) n' value
  end.

(** [std::fill(first, last, value)]. *)
Definition fill (a : list T) (first last : nat) (value : T) : option (list T) :=
  if decide (first <= last)%nat then fill_loop a first (last - first) value
  else None.

(** [for (; first != last; ++first) f( *first );] where [f] assigns the
    value [f_value] to the slot it is given. *)
Fixpoint for_each_assign_loop (a : list T) (first n : nat) (f_value : T)
  : option (list T) :=
  match n with
  | O => Some a
  | S n' =>
      a' ← ArrayPtr.store a first f_value;
      for_each_assign_loop a' (S first) n' f_value
  end.

(** [std::for_each(first, last, [](auto& x) { x = f_value; })]. *)
Definition for_each_assign (a : list T) (first last : nat) (f_value : T)
  : option (list T) :=
  if decide (first <= last)%nat then for_each_assign_loop a first (last - first) f_value
  else None.

(** [for (; first1 != last1; ++first1, ++first2)
       if (!( *first1 == *first2 )) return false;
     return true;] *)
Fixpoint equal_loop (eqb : T -> T -> bool)
    (a : list T) (first1 n : nat) (b : list T) (first2 : nat) : option bool :=
  match n with
  | O => Some true
  | S n' =>
      x ← ArrayPtr.load a first1;
      y ← ArrayPtr.load b first2;
      if eqb x y then equal_loop eqb a (S first1) n' b (S first2)
      else Some false
  end.

(** [std::equal(first1, last1, first2)]. *)
Definition equal (eqb : T -> T -> bool)
    (a : list T) (first1 last1 : nat) (b : list T) (first2 : nat) : option bool :=
  if decide (first1 <= last1)%nat then equal_loop eqb a first1 (last1 - first1) b first2
  else None.

(** [for (; first1 != last1 && first2 != last2; ++first1, ++first2) {
       if ( *first1 < *first2 ) return true;
       if ( *first2 < *first1 ) return false;
     }
     return first1 == last1 && first2 != last2;] *)
Fixpoint lexicographical_compare_loop (ltb : T -> T -> bool)
    (a : list T) (first1 n1 : nat) (b : list T) (first2 n2 : nat) : option bool :=
  match n1, n2 with
  | S n1', S n2' =>
      x ← ArrayPtr.load a first1;
      y ← ArrayPtr.load b first2;
      if ltb x y then Some true
      else if ltb y x then Some false
      else lexicographical_compare_loop ltb a (S first1) n1' b (S first2) n2'
  | O, S _ => Some true
  | _, O => Some false
  end.

(** [std::lexicographical_compare(first1, last1, first2, last2)]. *)
Definition lexicographical_compare (ltb : T -> T -> bool)
    (a : list T) (first1 last1 : nat) (b : list T) (first2 last2 : nat) : option bool :=
  if decide (first1 <= last1)%nat then
    if decide (first2 <= last2)%nat then
      lexicographical_compare_loop ltb a first1 (last1 - first1) b first2 (last2 - first2)
    else None
  else None.

End algorithms.
End std.

(** ** The container *)

(** [class ReserveProxyObj]. *)
Record ReserveProxyObj : Type := MkReserveProxyObj { capacity_reserve_ : N }.

(** The free function [Reserve(capacity_to_reserve)]. *)
Definition Reserve_proxy (capacity_to_reserve : N) : ReserveProxyObj :=
  MkReserveProxyObj capacity_to_reserve.

(** The data members of [SimpleVector<Type>]. *)
Record SimpleVector (T : Type) : Type := MkSimpleVector {
  items_ : list T;
  size_ : N;
  capacity_ : N
}.
Arguments MkSimpleVector {T} items_ size_ capacity_.
Arguments items_ {T} _.
Arguments size_ {T} _.
Arguments capacity_ {T} _.

(** [Iterator] and [ConstIterator]: a slot offset from [items_.Get()]. *)
Definition Iterator : Type := Z.

Inductive exception : Type :=
| out_of_range (what : string).

(** How a member function ends: it returns [r] and leaves the object as
    [v], or throws and leaves the object as [v], or has undefined
    behaviour. *)
Inductive outcome (T R : Type) : Type :=
| Returns (r : R) (v : SimpleVector T)
| Throws (e : exception) (v : SimpleVector T)
| Undefined.
Arguments Returns {T R} r v.
Arguments Throws {T R} e v.
Arguments Undefined {T R}.

Definition bind {T R R'} (o : outcome T R) (k : R -> SimpleVector T -> outcome T R')
  : outcome T R' :=
  match o with
  | Returns r v => k r v
  | Throws e v => Throws e v
  | Undefined => Undefined
  end.

(** An array operation inside a member function. *)
Definition defined {T A R} (o : option A) (k : A -> outcome T R) : outcome T R :=
  match o with
  | Some a => k a
  | None => Undefined
  end.

Notation "'do' x , v <- o ; k" := (bind o (fun x v => k))
  (at level 10, x name, v name, o at level 100, k at level 200).
Notation "'arr' a <- o ; k" := (defined o (fun a => k))
  (at level 10, a name, o at level 100, k at level 200).

(** What an argument of type [const Type&] or [Type&&] refers to: an
    object that is no slot of the container's array, given by its value,
    or the slot [items_[i]] of the array that the container holds when the
    member function is called. *)
Inductive reference (T : Type) : Type :=
| Outside (x : T)
| Slot (i : nat).
Arguments Outside {T} x.
Arguments Slot {T} i.

(** Reading through a reference inside a member function.  [released]
    tells whether the array that the container held at the call has been
    released since: [ReCapacity] leaves it in [tmp], whose destructor
    releases it (the specification: "the old buffer is released"), and
    reading a slot of a released array is undefined.  [items] is the array
    as it is at the moment of the read. *)
Definition read_reference {T : Type} (released : bool) (items : list T)
    (r : reference T) : option T :=
  match r with
  | Outside x => Some x
  | Slot i => if released then None else ArrayPtr.load items i
  end.

Section SimpleVector.
Context {T : Type}.

(** The value of the expression [Type()]. *)
Variable default_value : T.

(** The contents of freshly allocated slots, see [ArrayPtr.new]. *)
Variable uninit : N -> nat -> T.

Implicit Types (v this other lhs rhs : SimpleVector T).

Definition GetSize v : N := size_ v.

Definition GetCapacity v : N := capacity_ v.

Definition IsEmpty v : bool := (size_ v =? 0)%N.

(** [begin()], [cbegin()]: [items_.Get()]. *)
Definition begin v : Iterator := 0%Z.

(** [end()], [cend()]: [items_.Get() + size_]. *)
Definition end_ v : Iterator := (0 + Z.of_N (size_ v))%Z.

Definition cbegin v : Iterator := begin v.

Definition cend v : Iterator := end_ v.

(** [swap(other)]: the pair (new [this], new [other]). *)
Definition swap this other : SimpleVector T * SimpleVector T :=
  let '(items, other_items) := ArrayPtr.swap (items_ this) (items_ other) in
  (MkSimpleVector items (size_ other) (capacity_ other),
   MkSimpleVector other_items (size_ this) (capacity_ this)).

Definition ReCapacity v (capacity : N) : outcome T unit :=
  let tmp := ArrayPtr.new uninit capacity in
  arr tmp <- std.move (items_ v) 0 (0 + N.to_nat (size_ v)) tmp 0;
  let '(items, tmp) := ArrayPtr.swap (items_ v) tmp in
  Returns tt (MkSimpleVector items (size_ v) capacity).

(** [SimpleVector() noexcept = default]. *)
Definition SimpleVector_default : SimpleVector T := MkSimpleVector [] 0 0.

(** [explicit SimpleVector(size_t size)]. *)
Definition SimpleVector_sized (size : N) : outcome T unit :=
  let items := ArrayPtr.new uninit size in
  arr items <- std.fill items 0 (0 + N.to_nat size) default_value;
  Returns tt (MkSimpleVector items size size).

(** [SimpleVector(size_t size, const Type& value)]. *)
Definition SimpleVector_filled (size : N) (value : T) : outcome T unit :=
  let items := ArrayPtr.new uninit size in
  arr items <- std.fill items 0 (0 + N.to_nat size) value;
  Returns tt (MkSimpleVector items size size).

(** [SimpleVector(std::initializer_list<Type> init)]. *)
Definition SimpleVector_init (init : list T) : outcome T unit :=
  let n := N.of_nat (length init) in
  let items := ArrayPtr.new uninit n in
  arr items <- std.copy init 0 (length init) items 0;
  Returns tt (MkSimpleVector items n n).

(** [SimpleVector(const SimpleVector& other)]. *)
Definition SimpleVector_copy other : outcome T unit :=
  let this := SimpleVector_default in
  if (size_ this =? 0)%N then
    do _, tmp <- SimpleVector_sized (GetSize other);
    arr items <- std.copy (items_ other) (Z.to_nat (begin other)) (Z.to_nat (end_ other))
                          (items_ tmp) (Z.to_nat (begin tmp));
    let tmp := MkSimpleVector items (size_ tmp) (capacity_ tmp) in
    let '(this, tmp) := swap this tmp in
    Returns tt this
  else Undefined.

(** [SimpleVector(SimpleVector&& other) noexcept]: the pair
    (constructed object, new [other]). *)
Definition SimpleVector_move other : option (SimpleVector T * SimpleVector T) :=
  let this := SimpleVector_default in
  if (size_ this =? 0)%N then
    let '(items, other_items) := ArrayPtr.move_assign (items_ this) (items_ other) in
    (* std::exchange(other.size_, 0), std::exchange(other.capacity_, 0) *)
    Some (MkSimpleVector items (size_ other) (capacity_ other),
          MkSimpleVector other_items 0 0)
  else None.

(** [operator[]], both forms. *)
Definition subscript v (index : N) : outcome T T :=
  arr x <- ArrayPtr.load (items_ v) (N.to_nat index);
  Returns x v.

(** [Type& At(size_t index)]. *)
Definition At v (index : N) : outcome T T :=
  if (size_ v <=? index)%N then Throws (out_of_range "index >= size") v
  else
    arr x <- ArrayPtr.load (items_ v) (N.to_nat index);
    Returns x v.

(** [const Type& At(size_t index) const]. *)
Definition At_const v (index : N) : outcome T T :=
  if (size_ v <=? index)%N then Throws (out_of_range "index >= size") v
  else
    arr x <- ArrayPtr.load (items_ v) (N.to_nat index);
    Returns x v.

Definition Clear v : outcome T unit :=
  Returns tt (MkSimpleVector (items_ v) 0 (capacity_ v)).

Definition Resize v (new_size : N) : outcome T unit :=
  do _, v <-
    (if (size_ v <? new_size)%N then
       if (new_size <=? capacity_ v)%N then
         let tmp := ArrayPtr.new uninit new_size in
         arr tmp <- std.move (items_ v) 0 (0 + N.to_nat (size_ v)) tmp 0;
         arr tmp <- std.for_each_assign tmp (0 + N.to_nat (size_ v))
                                        (0 + N.to_nat new_size) default_value;
         let '(items, tmp) := ArrayPtr.swap (items_ v) tmp in
         Returns tt (MkSimpleVector items new_size new_size)
       else ReCapacity v (size_t.mul new_size 2)
     else Returns tt v);
  Returns tt (MkSimpleVector (items_ v) new_size (capacity_ v)).

(** [SimpleVector& operator=(SimpleVector&&) = default]: member by
    member, [items_] by the array's move assignment and the two counters
    by plain assignment; the pair (new [this], new [other]) for two
    distinct objects. *)
Definition move_assign this other : SimpleVector T * SimpleVector T :=
  let '(items, other_items) := ArrayPtr.move_assign (items_ this) (items_ other) in
  (MkSimpleVector items (size_ other) (capacity_ other),
   MkSimpleVector other_items (size_ other) (capacity_ other)).

(** [void PushBack(const Type& item)]: [item] is read in the assignment
    to [*(end())], after the growth step. *)
Definition PushBack v (item : reference T) : outcome T unit :=
  let released := (size_ v =? capacity_ v)%N in
  do _, v <-
    (if (size_ v =? capacity_ v)%N then
       ReCapacity v (if (capacity_ v =? 0)%N then 1%N else size_t.mul (capacity_ v) 2)
     else Returns tt v);
  arr x <- read_reference released (items_ v) item;
  arr items <- ArrayPtr.store (items_ v) (Z.to_nat (end_ v)) x;
  Returns tt (MkSimpleVector items (size_t.incr (size_ v)) (capacity_ v)).

(** [void PushBack(Type&& item)]: [item] is read by [std::move(item)] in
    the assignment to [*(end())], after the growth step. *)
Definition PushBack_rvalue v (item : reference T) : outcome T unit :=
  let released := (size_ v =? capacity_ v)%N in
  do _, v <-
    (if (size_ v =? capacity_ v)%N then
       ReCapacity v (if (capacity_ v =? 0)%N then 1%N else size_t.mul (capacity_ v) 2)
     else Returns tt v);
  arr x <- read_reference released (items_ v) item;
  arr items <- ArrayPtr.store (items_ v) (Z.to_nat (end_ v)) x;
  Returns tt (MkSimpleVector items (size_t.incr (size_ v)) (capacity_ v)).

(** [Iterator Insert(ConstIterator pos, const Type& value)]; a failed
    [assert] is undefined behaviour.  [value] is read in the assignment to
    [*it], after the growth step and after the elements have been
    shifted. *)
Definition Insert v (pos : Iterator) (value : reference T) : outcome T Iterator :=
  if bool_decide (begin v <= pos /\ pos <= end_ v)%Z then
    let begin_to_pos := (pos - begin v)%Z in
    let released := (size_ v =? capacity_ v)%N in
    do _, v <-
      (if (size_ v =? capacity_ v)%N then
         ReCapacity v (if (capacity_ v =? 0)%N then 1%N else size_t.mul (capacity_ v) 2)
       else Returns tt v);
    arr items <- std.copy_backward (items_ v) (Z.to_nat (begin v + begin_to_pos))
                                   (Z.to_nat (end_ v)) (Z.to_nat (end_ v + 1));
    let it := (begin v + begin_to_pos)%Z in
    arr x <- read_reference released items value;
    arr items <- ArrayPtr.store items (Z.to_nat it) x;
    Returns it (MkSimpleVector items (size_t.incr (size_ v)) (capacity_ v))
  else Undefined.

(** [Iterator Insert(ConstIterator pos, Type&& value)]; [value] is read
    in the assignment to [*it], after the growth step and after the
    elements have been shifted. *)
Definition Insert_rvalue v (pos : Iterator) (value : reference T) : outcome T Iterator :=
  if bool_decide (begin v <= pos /\ pos <= end_ v)%Z then
    let begin_to_pos := (pos - begin v)%Z in
    let released := (size_ v =? capacity_ v)%N in
    do _, v <-
      (if (size_ v =? capacity_ v)%N then
         ReCapacity v (if (capacity_ v =? 0)%N then 1%N else size_t.mul (capacity_ v) 2)
       else Returns tt v);
    arr items <- std.move_backward (items_ v) (Z.to_nat (begin v + begin_to_pos))
                                   (Z.to_nat (end_ v)) (Z.to_nat (end_ v + 1));
    let it := (begin v + begin_to_pos)%Z in
    arr x <- read_reference released items value;
    arr items <- ArrayPtr.store items (Z.to_nat it) x;
    Returns it (MkSimpleVector items (size_t.incr (size_ v)) (capacity_ v))
  else Undefined.

Definition PopBack v : outcome T unit :=
  if negb (IsEmpty v) then
    Returns tt (MkSimpleVector (items_ v) (size_t.decr (size_ v)) (capacity_ v))
  else Returns tt v.

Definition Erase v (pos : Iterator) : outcome T Iterator :=
  let begin_to_pos := (pos - begin v)%Z in
  do _, v <-
    (if bool_decide (begin v <= pos /\ pos < end_ v)%Z then
       let it := (begin v + begin_to_pos)%Z in
       arr items <- std.move_within (items_ v) (Z.to_nat (it + 1)) (Z.to_nat (end_ v))
                                    (Z.to_nat it);
       Returns tt (MkSimpleVector items (size_t.decr (size_ v)) (capacity_ v))
     else Returns tt v);
  Returns (begin v + begin_to_pos)%Z v.

Definition Reserve v (new_capacity : N) : outcome T unit :=
  if (capacity_ v <? new_capacity)%N then ReCapacity v new_capacity
  else Returns tt v.

(** [SimpleVector(ReserveProxyObj obj)]. *)
Definition SimpleVector_reserved (obj : ReserveProxyObj) : outcome T unit :=
  Reserve SimpleVector_default (capacity_reserve_ obj).

(** [SimpleVector& operator=(const SimpleVector& rhs)] on the objects
    stored at the addresses [this] and [rhs] of [objects]; a reference to
    no object is undefined behaviour. *)
Definition copy_assign (objects : gmap nat (SimpleVector T)) (this rhs : nat)
  : option (gmap nat (SimpleVector T)) :=
  this_v ← objects !! this;
  rhs_v ← objects !! rhs;
  if bool_decide (this ≠ rhs) then
    match SimpleVector_copy rhs_v with
    | Returns _ tmp =>
        let '(this_v, tmp) := swap this_v tmp in
        Some (<[this := this_v]> objects)
    | _ => None
    end
  else Some objects.

(** The element type's [operator==] and [operator<]. *)
Variable eqb : T -> T -> bool.
Variable ltb : T -> T -> bool.

(** [operator==]. *)
Definition op_eq lhs rhs : option bool :=
  if (GetSize lhs =? GetSize rhs)%N then
    std.equal eqb (items_ lhs) (Z.to_nat (begin lhs)) (Z.to_nat (end_ lhs))
              (items_ rhs) (Z.to_nat (begin rhs))
  else Some false.

(** [operator!=]. *)
Definition op_ne lhs rhs : option bool := negb <$> op_eq lhs rhs.

(** [operator<]. *)
Definition op_lt lhs rhs : option bool :=
  std.lexicographical_compare ltb
    (items_ lhs) (Z.to_nat (begin lhs)) (Z.to_nat (end_ lhs))
    (items_ rhs) (Z.to_nat (begin rhs)) (Z.to_nat (end_ rhs)).

(** [operator<=]. *)
Definition op_le lhs rhs : option bool := negb <$> op_lt rhs lhs.

(** [operator>]. *)
Definition op_gt lhs rhs : option bool := op_lt rhs lhs.

(** [operator>=]. *)
Definition op_ge lhs rhs : option bool := negb <$> op_lt lhs rhs.

(** *** The data-model invariant and the visible elements *)

(** [0 <= size <= capacity], the array has [capacity] slots, and the
    capacity is a [size_t]. *)
Definition wf v : Prop :=
  (size_ v <= capacity_ v)%N /\
  length (items_ v) = N.to_nat (capacity_ v) /\
  size_t.in_range (capacity_ v).

(** The sequence [begin(), end()). *)
Definition elements v : list T := take (N.to_nat (size_ v)) (items_ v).

(** The capacity after the growth step of [PushBack] and [Insert], with
    the product taken in [N]. *)
Definition grown_capacity v : N :=
  if (size_ v =? capacity_ v)%N then
    if (capacity_ v =? 0)%N then 1%N else (capacity_ v * 2)%N
  else capacity_ v.

(** The value that a reference designates when a member function is
    called: the object outside the array, or the element of the container
    at that index. *)
Definition referent v (r : reference T) : option T :=
  match r with
  | Outside x => Some x
  | Slot i => elements v !! i
  end.

(** The reference designates an object outside the array, or an element
    of a container that has room, so that the call does not reallocate. *)
Definition readable v (r : reference T) : Prop :=
  match r with
  | Outside _ => True
  | Slot i => (size_ v < capacity_ v)%N /\ (i < N.to_nat (size_ v))%nat
  end.

(** A client that calls [PushBack] once for each reference of [items]. *)
Fixpoint PushBack_each v (items : list (reference T)) : outcome T unit :=
  match items with
  | [] => Returns tt v
  | item :: items => do _, v <- PushBack v item; PushBack_each v items
  end.

(** Lexicographic comparison of two sequences as the order is usually
    defined, to be compared with [op_lt]: the sequences agree (neither
    element is less than the other) on the first [k] positions, and at
    position [k] either the left sequence has ended while the right one
    goes on, or the left element is less than the right one. *)
Definition lex_less (l1 l2 : list T) : Prop :=
  exists k : nat,
    (forall i : nat, (i < k)%nat ->
       exists x y, l1 !! i = Some x /\ l2 !! i = Some y /\
                   ltb x y = false /\ ltb y x = false) /\
    ((l1 !! k = None /\ is_Some (l2 !! k)) \/
     (exists x y, l1 !! k = Some x /\ l2 !! k = Some y /\ ltb x y = true)).

End SimpleVector.


(** ** Containers of integers used as examples *)

Definition example_uninit : N -> nat -> Z := fun _ _ => (-1)%Z.

(** Size 2, capacity 4. *)
Definition example_vector : SimpleVector Z := MkSimpleVector [7; 8; 0; 0]%Z 2 4.

(** Size 3, capacity 3. *)
Definition example_full : SimpleVector Z := MkSimpleVector [1; 2; 3]%Z 3 3.

(** Size 0, capacity 4. *)
Definition example_cleared : SimpleVector Z := MkSimpleVector [7; 8; 0; 0]%Z 0 4.

Arguments ArrayPtr.new : simpl never.
Arguments N.to_nat : simpl never.


(** * Facts about the arithmetic, the array and the algorithms *)

Set Default Proof Using "Type".

Section size_t_facts.

Lemma wrap_small (n : N) : (n < size_t.modulus)%N -> size_t.wrap n = n.
Proof. intros H. unfold size_t.wrap. by apply N.mod_small. Qed.

Lemma incr_small (n : N) : (n + 1 < size_t.modulus)%N -> size_t.incr n = (n + 1)%N.
Proof. intros H. unfold size_t.incr. by apply wrap_small. Qed.

Lemma decr_pos (n : N) :
  (0 < n)%N -> (n < size_t.modulus)%N -> size_t.decr n = (n - 1)%N.
Proof.
  intros H0 H. unfold size_t.decr, size_t.wrap.
  replace (n + size_t.modulus - 1)%N with ((n - 1) + 1 * size_t.modulus)%N by lia.
  rewrite N.Div0.mod_add. apply N.mod_small. lia.
Qed.

Lemma double_small (n : N) : (n < 2 ^ 63)%N -> size_t.mul n 2 = (n * 2)%N.
Proof.
  intros H. unfold size_t.mul. apply wrap_small. unfold size_t.modulus.
  change (2 ^ 64)%N with (2 ^ 63 * 2)%N. lia.
Qed.

End size_t_facts.

Section ArrayPtr_facts.
Context {T : Type}.
Variable uninit : N -> nat -> T.

Lemma length_new (size : N) : length (ArrayPtr.new uninit size) = N.to_nat size.
Proof. unfold ArrayPtr.new. by rewrite length_fmap, length_seq. Qed.

Lemma store_Some (a : list T) (i : nat) (x : T) :
  (i < length a)%nat -> ArrayPtr.store a i x = Some (<[i:=x]> a).
Proof. intros H. unfold ArrayPtr.store. by rewrite decide_True. Qed.

Lemma load_Some (a : list T) (i : nat) :
  (i < length a)%nat -> exists x, ArrayPtr.load a i = Some x.
Proof.
  intros H. unfold ArrayPtr.load.
  destruct (lookup_lt_is_Some_2 a i H) as [x Hx]. eauto.
Qed.

End ArrayPtr_facts.

Section std_facts.
Context {T : Type}.
Implicit Types (a src dst l : list T).

Lemma take_S_insert a (i : nat) (x : T) :
  (i < length a)%nat -> take (S i) (<[i:=x]> a) = take i a ++ [x].
Proof.
  intros H. rewrite (take_S_r _ _ x).
  - by rewrite take_insert_ge by lia.
  - by apply list_lookup_insert_eq.
Qed.

Lemma copy_loop_spec (n : nat) : forall src (first : nat) dst (d_first : nat),
  (first + n <= length src)%nat -> (d_first + n <= length dst)%nat ->
  std.copy_loop src first n dst d_first =
    Some (take d_first dst ++ take n (drop first src) ++ drop (d_first + n) dst).
Proof.
  induction n as [|n IH]; intros src first dst d_first Hs Hd; simpl.
  - by rewrite Nat.add_0_r, take_drop.
  - destruct (load_Some src first) as [x Hx]; [lia|].
    rewrite Hx; simpl.
    rewrite store_Some by lia; simpl.
    rewrite IH by (rewrite ?length_insert; lia).
    f_equal.
    rewrite take_S_insert by lia.
    rewrite drop_insert_lt by lia.
    unfold ArrayPtr.load in Hx.
    rewrite (drop_S src x first Hx); simpl.
    rewrite <- app_assoc; simpl.
    by replace (d_first + S n)%nat with (S (d_first + n)) by lia.
Qed.

Lemma move_within_loop_spec (n : nat) : forall a (first d_first : nat),
  (d_first <= first)%nat -> (first + n <= length a)%nat ->
  std.move_within_loop a first n d_first =
    Some (take d_first a ++ take n (drop first a) ++ drop (d_first + n) a).
Proof.
  induction n as [|n IH]; intros a first d_first Hle Ha; simpl.
  - by rewrite Nat.add_0_r, take_drop.
  - destruct (load_Some a first) as [x Hx]; [lia|].
    rewrite Hx; simpl.
    rewrite store_Some by lia; simpl.
    rewrite IH by (rewrite ?length_insert; lia).
    f_equal.
    rewrite take_S_insert by lia.
    rewrite !drop_insert_lt by lia.
    unfold ArrayPtr.load in Hx.
    rewrite (drop_S a x first Hx); simpl.
    rewrite <- app_assoc; simpl.
    by replace (d_first + S n)%nat with (S (d_first + n)) by lia.
Qed.

Lemma copy_backward_loop_spec (n : nat) : forall a (first d_last : nat),
  (first + n <= d_last)%nat -> (d_last <= length a)%nat ->
  std.copy_backward_loop a first n d_last =
    Some (take (d_last - n) a ++ take n (drop first a) ++ drop d_last a).
Proof.
  induction n as [|n IH]; intros a first d_last Hle Ha; simpl.
  - by rewrite Nat.sub_0_r, take_drop.
  - destruct (load_Some a (first + n)) as [x Hx]; [lia|].
    rewrite Hx; simpl.
    destruct d_last as [|d]; [lia|].
    rewrite store_Some by lia; simpl.
    rewrite IH by (rewrite ?length_insert; lia).
    f_equal.
    rewrite take_insert_ge by lia.
    rewrite drop_insert_ge by lia.
    rewrite take_insert_ge by lia.
    unfold ArrayPtr.load in Hx.
    rewrite (take_S_r (drop first a) n x) by (by rewrite lookup_drop).
    rewrite <- app_assoc; simpl.
    do 2 f_equal.
    rewrite drop_insert_ge by lia. rewrite Nat.sub_diag.
    destruct (lookup_lt_is_Some_2 a d) as [y Hy]; [lia|].
    by rewrite (drop_S a y d Hy).
Qed.

Lemma fill_loop_spec (n : nat) : forall a (first : nat) (value : T),
  (first + n <= length a)%nat ->
  std.fill_loop a first n value =
    Some (take first a ++ replicate n value ++ drop (first + n) a).
Proof.
  induction n as [|n IH]; intros a first value Ha; simpl.
  - by rewrite Nat.add_0_r, take_drop.
  - rewrite store_Some by lia; simpl.
    rewrite IH by (rewrite ?length_insert; lia).
    f_equal.
    rewrite take_S_insert by lia.
    rewrite drop_insert_lt by lia.
    rewrite <- app_assoc; simpl.
    by replace (first + S n)%nat with (S (first + n)) by lia.
Qed.

Lemma for_each_assign_loop_fill (n : nat) : forall a (first : nat) (value : T),
  std.for_each_assign_loop a first n value = std.fill_loop a first n value.
Proof.
  induction n as [|n IH]; intros a first value; simpl; [done|].
  destruct (ArrayPtr.store a first value); simpl; [apply IH|done].
Qed.

(** The ranges as calls give them. *)

Lemma copy_spec src (first last : nat) dst (d_first : nat) :
  (first <= last <= length src)%nat -> (d_first + (last - first) <= length dst)%nat ->
  std.copy src first last dst d_first =
    Some (take d_first dst ++ take (last - first) (drop first src)
            ++ drop (d_first + (last - first)) dst).
Proof.
  intros Hs Hd. unfold std.copy. rewrite decide_True by lia.
  apply copy_loop_spec; lia.
Qed.

Lemma move_within_spec a (first last d_first : nat) :
  (d_first <= first <= last)%nat -> (last <= length a)%nat ->
  std.move_within a first last d_first =
    Some (take d_first a ++ take (last - first) (drop first a)
            ++ drop (d_first + (last - first)) a).
Proof.
  intros Hs Hd. unfold std.move_within. rewrite decide_True by lia.
  apply move_within_loop_spec; lia.
Qed.

Lemma copy_backward_spec a (first last d_last : nat) :
  (first <= last <= d_last)%nat -> (d_last <= length a)%nat ->
  std.copy_backward a first last d_last =
    Some (take (d_last - (last - first)) a ++ take (last - first) (drop first a)
            ++ drop d_last a).
Proof.
  intros Hs Hd. unfold std.copy_backward. rewrite decide_True by lia.
  apply copy_backward_loop_spec; lia.
Qed.

Lemma fill_spec a (first last : nat) (value : T) :
  (first <= last <= length a)%nat ->
  std.fill a first last value =
    Some (take first a ++ replicate (last - first) value ++ drop last a).
Proof.
  intros Hs. unfold std.fill. rewrite decide_True by lia.
  rewrite fill_loop_spec by lia. by replace (first + (last - first))%nat with last by lia.
Qed.

Lemma for_each_assign_spec a (first last : nat) (value : T) :
  (first <= last <= length a)%nat ->
  std.for_each_assign a first last value =
    Some (take first a ++ replicate (last - first) value ++ drop last a).
Proof.
  intros Hs. rewrite <- fill_spec by done.
  unfold std.for_each_assign, std.fill. case_decide; [|done].
  apply for_each_assign_loop_fill.
Qed.

Variable ltb : T -> T -> bool.

Lemma lex_less_nil_cons (y : T) l : lex_less ltb [] (y :: l).
Proof.
  exists 0%nat. split; [intros i Hi; lia|]. left. split; [done|]. by exists y.
Qed.

Lemma lex_less_nil_r l : ~ lex_less ltb l [].
Proof.
  intros (k & Hpre & [[_ [y Hy]]|(x & y & _ & Hy & _)]); by rewrite lookup_nil in Hy.
Qed.

Lemma lex_less_cons (x y : T) l1 l2 :
  lex_less ltb (x :: l1) (y :: l2) <->
  ltb x y = true \/ (ltb x y = false /\ ltb y x = false /\ lex_less ltb l1 l2).
Proof.
  split.
  - intros (k & Hpre & Hk). destruct k as [|k].
    + destruct Hk as [[Hn _]|(x' & y' & Hx & Hy & Hlt)]; [done|].
      simpl in Hx, Hy. left. congruence.
    + destruct (Hpre 0%nat ltac:(lia)) as (x' & y' & Hx & Hy & Hxy & Hyx).
      simpl in Hx, Hy. simplify_eq. right. split; [done|]. split; [done|].
      exists k. split; [|exact Hk].
      intros i Hi. apply (Hpre (S i)). lia.
  - intros [Hlt|(Hxy & Hyx & (k & Hpre & Hk))].
    + exists 0%nat. split; [intros i Hi; lia|]. right. by exists x, y.
    + exists (S k). split; [|exact Hk].
      intros [|i] Hi; [by exists x, y|]. apply Hpre. lia.
Qed.

Lemma lexicographical_compare_loop_spec (n1 : nat) :
  forall (a : list T) (first1 : nat) (b : list T) (first2 n2 : nat),
  (first1 + n1 <= length a)%nat -> (first2 + n2 <= length b)%nat ->
  exists r : bool,
    std.lexicographical_compare_loop ltb a first1 n1 b first2 n2 = Some r /\
    (r = true <-> lex_less ltb (take n1 (drop first1 a)) (take n2 (drop first2 b))).
Proof.
  induction n1 as [|n1 IH]; intros a first1 b first2 n2 Ha Hb.
  - destruct n2 as [|n2]; simpl.
    + exists false. split; [done|]. split; [done|]. intros H. by apply lex_less_nil_r in H.
    + destruct (lookup_lt_is_Some_2 b first2) as [y Hy]; [lia|].
      rewrite (drop_S b y first2 Hy). simpl.
      exists true. split; [done|]. split; [|done]. intros _. apply lex_less_nil_cons.
  - destruct n2 as [|n2]; simpl.
    + exists false. split; [done|]. split; [done|]. intros H. by apply lex_less_nil_r in H.
    + destruct (lookup_lt_is_Some_2 a first1) as [x Hx]; [lia|].
      destruct (lookup_lt_is_Some_2 b first2) as [y Hy]; [lia|].
      unfold ArrayPtr.load. rewrite Hx, Hy. simpl.
      rewrite (drop_S a x first1 Hx), (drop_S b y first2 Hy). simpl.
      destruct (ltb x y) eqn:Hxy.
      { exists true. split; [done|]. split; [|done]. intros _. apply lex_less_cons. by left. }
      destruct (ltb y x) eqn:Hyx.
      { exists false. split; [done|]. split; [done|].
        intros H. apply lex_less_cons in H. destruct H as [H|(_ & H & _)]; congruence. }
      destruct (IH a (S first1) b (S first2) n2) as (r & Hr & Hiff); [lia|lia|].
      exists r. split; [done|]. rewrite Hiff, lex_less_cons.
      split; [intros H; right; by rewrite Hxy, Hyx|].
      intros [H|(_ & _ & H)]; [congruence|done].
Qed.

Variable eqb : T -> T -> bool.

Lemma equal_loop_spec (n : nat) :
  forall (a : list T) (first1 : nat) (b : list T) (first2 : nat),
  (first1 + n <= length a)%nat -> (first2 + n <= length b)%nat ->
  exists r : bool,
    std.equal_loop eqb a first1 n b first2 = Some r /\
    (r = true <->
     Forall2 (fun x y => eqb x y = true) (take n (drop first1 a)) (take n (drop first2 b))).
Proof.
  induction n as [|n IH]; intros a first1 b first2 Ha Hb; simpl.
  - exists true. split; [done|]. split; [|done]. intros _. constructor.
  - destruct (lookup_lt_is_Some_2 a first1) as [x Hx]; [lia|].
    destruct (lookup_lt_is_Some_2 b first2) as [y Hy]; [lia|].
    unfold ArrayPtr.load. rewrite Hx, Hy. simpl.
    rewrite (drop_S a x first1 Hx), (drop_S b y first2 Hy). simpl.
    destruct (eqb x y) eqn:Hxy.
    + destruct (IH a (S first1) b (S first2)) as (r & Hr & Hiff); [lia|lia|].
      exists r. split; [done|]. rewrite Hiff. split.
      * intros H. by constructor.
      * intros H. by inversion H.
    + exists false. split; [done|]. split; [done|].
      intros H. inversion H. congruence.
Qed.

Lemma shifted_right a (p sz : nat) (x : T) :
  (p <= sz)%nat -> (sz < length a)%nat ->
  take (S sz)
    (<[p:=x]> (take (S sz - (sz - p)) a ++ take (sz - p) (drop p a) ++ drop (S sz) a)) =
  take p (take sz a) ++ x :: drop p (take sz a).
Proof.
  intros Hp Hsz.
  destruct (lookup_lt_is_Some_2 a p) as [y Hy]; [lia|].
  replace (S sz - (sz - p))%nat with (S p) by lia.
  rewrite (take_S_r a p y Hy), <- !app_assoc.
  rewrite insert_app_r_alt by (rewrite length_take; lia).
  rewrite length_take_le, Nat.sub_diag by lia.
  change (<[0%nat:=x]> ([y] ++ ?l)) with (x :: l).
  rewrite take_app, length_take_le by lia.
  rewrite (take_ge (take p a)) by (rewrite length_take; lia).
  replace (S sz - p)%nat with (S (sz - p)) by lia.
  rewrite firstn_cons.
  rewrite (take_app_length' (take (sz - p) (drop p a))).
  2:{ rewrite length_take, length_drop. lia. }
  rewrite take_take, (take_drop_commute a (sz - p) p).
  replace (p `min` sz)%nat with p by lia.
  by replace (p + (sz - p))%nat with sz by lia.
Qed.

Lemma shifted_left a (p sz : nat) :
  (p < sz)%nat -> (sz <= length a)%nat ->
  take (sz - 1)
    (take p a ++ take (sz - S p) (drop (S p) a) ++ drop (p + (sz - S p)) a) =
  take p (take sz a) ++ drop (S p) (take sz a).
Proof.
  intros Hp Hsz.
  rewrite app_assoc, take_app_length'.
  2:{ rewrite length_app, !length_take, length_drop. lia. }
  rewrite take_take, (take_drop_commute a (sz - S p) (S p)).
  replace (p `min` sz)%nat with p by lia.
  by replace (S p + (sz - S p))%nat with sz by lia.
Qed.

Lemma lookup_inserted_before l (p i : nat) (x : T) :
  (i < p)%nat -> (p <= length l)%nat -> (take p l ++ x :: drop p l) !! i = l !! i.
Proof.
  intros Hi Hp. rewrite lookup_app_l by (rewrite length_take; lia).
  by apply lookup_take_lt.
Qed.

Lemma lookup_inserted_at l (p : nat) (x : T) :
  (p <= length l)%nat -> (take p l ++ x :: drop p l) !! p = Some x.
Proof.
  intros Hp. rewrite lookup_app_r by (rewrite length_take; lia).
  by rewrite length_take_le, Nat.sub_diag by lia.
Qed.

Lemma lookup_inserted_after l (p i : nat) (x : T) :
  (p <= i)%nat -> (p <= length l)%nat -> (take p l ++ x :: drop p l) !! S i = l !! i.
Proof.
  intros Hi Hp. rewrite lookup_app_r by (rewrite length_take; lia).
  rewrite length_take_le by lia.
  replace (S i - p)%nat with (S (i - p)) by lia. simpl.
  rewrite lookup_drop. f_equal. lia.
Qed.

Lemma shifted_lookup a (p sz i : nat) :
  (p <= sz)%nat -> (sz < length a)%nat -> (i < sz)%nat ->
  (take (S sz - (sz - p)) a ++ take (sz - p) (drop p a) ++ drop (S sz) a) !! i =
  a !! (if decide (i <= p)%nat then i else (i - 1)%nat).
Proof.
  intros Hp Hsz Hi. replace (S sz - (sz - p))%nat with (S p) by lia.
  case_decide as Hle.
  - rewrite lookup_app_l by (rewrite length_take; lia). apply lookup_take_lt. lia.
  - rewrite lookup_app_r by (rewrite length_take; lia).
    rewrite length_take_le by lia.
    rewrite lookup_app_l by (rewrite length_take, length_drop; lia).
    rewrite lookup_take_lt by lia. rewrite lookup_drop. f_equal. lia.
Qed.

Lemma lookup_erased_before l (p i : nat) :
  (i < p)%nat -> (p <= length l)%nat -> (take p l ++ drop (S p) l) !! i = l !! i.
Proof.
  intros Hi Hp. rewrite lookup_app_l by (rewrite length_take; lia).
  by apply lookup_take_lt.
Qed.

Lemma lookup_erased_after l (p i : nat) :
  (p <= i)%nat -> (p <= length l)%nat -> (take p l ++ drop (S p) l) !! i = l !! S i.
Proof.
  intros Hi Hp. rewrite lookup_app_r by (rewrite length_take; lia).
  rewrite length_take_le by lia. rewrite lookup_drop. f_equal. lia.
Qed.

End std_facts.

Lemma SimpleVector_init_spec {T : Type} (uninit : N -> nat -> T) (init : list T) :
  SimpleVector_init uninit init =
    Returns tt (MkSimpleVector init (N.of_nat (length init)) (N.of_nat (length init))).
Proof.
  unfold SimpleVector_init.
  rewrite copy_spec by (rewrite ?length_new; lia). simpl.
  rewrite Nat.sub_0_r, drop_0, take_ge by lia.
  rewrite drop_ge, app_nil_r by (rewrite length_new; lia).
  done.
Qed.


(** * Facts about the container *)

Section SimpleVector_facts.
Context {T : Type}.
Variable default_value : T.
Variable uninit : N -> nat -> T.
Variable eqb : T -> T -> bool.
Variable ltb : T -> T -> bool.
Implicit Types (v this other lhs rhs : SimpleVector T).


Lemma wf_size_le_length v : wf v -> (N.to_nat (size_ v) <= length (items_ v))%nat.
Proof. intros (Hs & Hl & _). lia. Qed.

Lemma length_elements v : wf v -> length (elements v) = N.to_nat (size_ v).
Proof. intros Hwf. unfold elements. rewrite length_take. pose proof (wf_size_le_length v Hwf). lia. Qed.

Lemma to_nat_end v : Z.to_nat (end_ v) = N.to_nat (size_ v).
Proof. unfold end_. lia. Qed.

Lemma to_nat_end_succ v : Z.to_nat (end_ v + 1) = S (N.to_nat (size_ v)).
Proof. unfold end_. lia. Qed.

Lemma ReCapacity_spec v (capacity : N) :
  (N.to_nat (size_ v) <= length (items_ v))%nat -> (size_ v <= capacity)%N ->
  ReCapacity uninit v capacity =
    Returns tt (MkSimpleVector
                  (elements v ++ drop (N.to_nat (size_ v)) (ArrayPtr.new uninit capacity))
                  (size_ v) capacity).
Proof.
  intros Hlen Hcap. unfold ReCapacity, std.move.
  rewrite copy_spec by (rewrite ?length_new; lia).
  simpl. rewrite Nat.sub_0_r. by rewrite drop_0.
Qed.

Lemma ReCapacity_wf v (capacity : N) v' :
  (N.to_nat (size_ v) <= length (items_ v))%nat -> (size_ v <= capacity)%N ->
  size_t.in_range capacity ->
  ReCapacity uninit v capacity = Returns tt v' ->
  wf v' /\ elements v' = elements v /\ size_ v' = size_ v /\ capacity_ v' = capacity.
Proof.
  intros Hlen Hcap Hr. rewrite ReCapacity_spec by done. intros [= <-].
  unfold wf, elements; simpl.
  rewrite length_app, length_take, length_drop, length_new.
  repeat split; try done; try lia.
  rewrite take_app_le by (rewrite length_take; lia).
  rewrite take_take. f_equal. lia.
Qed.






Lemma grow_spec v :
  wf v -> (size_ v < 2 ^ 63)%N ->
  exists v1,
    (if (size_ v =? capacity_ v)%N then
       ReCapacity uninit v
         (if (capacity_ v =? 0)%N then 1%N else size_t.mul (capacity_ v) 2)
     else Returns tt v) = Returns tt v1 /\
    wf v1 /\ elements v1 = elements v /\ size_ v1 = size_ v /\
    capacity_ v1 = grown_capacity v /\ (size_ v1 < capacity_ v1)%N.
Proof.
  intros Hwf Hsmall. pose proof (wf_size_le_length v Hwf) as Hlen.
  destruct Hwf as (Hsc & Hl & Hr). unfold grown_capacity.
  destruct (N.eqb_spec (size_ v) (capacity_ v)) as [Heq|Hne].
  - assert ((if (capacity_ v =? 0)%N then 1%N else size_t.mul (capacity_ v) 2) =
            (if (capacity_ v =? 0)%N then 1%N else (capacity_ v * 2)%N)) as ->.
    { destruct (capacity_ v =? 0)%N; [done|]. apply double_small. lia. }
    set (c := if (capacity_ v =? 0)%N then 1%N else (capacity_ v * 2)%N).
    assert (size_ v < c)%N as Hc.
    { subst c. destruct (N.eqb_spec (capacity_ v) 0); lia. }
    assert (size_t.in_range c) as Hcr.
    { subst c. unfold size_t.in_range, size_t.modulus.
      change (2 ^ 64)%N with (2 ^ 63 * 2)%N.
      destruct (N.eqb_spec (capacity_ v) 0); lia. }
    eexists. split; [apply ReCapacity_spec; lia|].
    destruct (ReCapacity_wf v c _ Hlen ltac:(lia) Hcr (ReCapacity_spec v c Hlen ltac:(lia)))
      as (? & ? & ? & ?).
    do 4 (split; [done|]). simpl. lia.
  - exists v. do 5 (split; [done|]). lia.
Qed.

(** The growth step when there is room or when doubling cannot wrap. *)
Lemma grow_run v :
  wf v -> ((size_ v < capacity_ v)%N \/ (size_ v < 2 ^ 63)%N) ->
  exists v1,
    (if (size_ v =? capacity_ v)%N then
       ReCapacity uninit v
         (if (capacity_ v =? 0)%N then 1%N else size_t.mul (capacity_ v) 2)
     else Returns tt v) = Returns tt v1 /\
    wf v1 /\ elements v1 = elements v /\ size_ v1 = size_ v /\
    capacity_ v1 = grown_capacity v /\ (size_ v1 < capacity_ v1)%N.
Proof.
  intros Hwf [Hroom|Hsmall]; [|by apply grow_spec].
  unfold grown_capacity. rewrite (proj2 (N.eqb_neq _ _)) by lia.
  exists v. do 5 (split; [done|]). exact Hroom.
Qed.

Lemma readable_referent v (r : reference T) :
  wf v -> readable v r -> exists x, referent v r = Some x.
Proof.
  intros Hwf Hr. destruct r as [y|i]; simpl in *; [by exists y|].
  destruct Hr as [_ Hi]. apply lookup_lt_is_Some_2. rewrite length_elements by done. lia.
Qed.

Lemma read_after_grow v v1 (r : reference T) (x : T) :
  readable v r -> referent v r = Some x ->
  (if (size_ v =? capacity_ v)%N then
     ReCapacity uninit v
       (if (capacity_ v =? 0)%N then 1%N else size_t.mul (capacity_ v) 2)
   else Returns tt v) = Returns tt v1 ->
  read_reference (size_ v =? capacity_ v)%N (items_ v1) r = Some x.
Proof.
  intros Hr Hx Hg. destruct r as [y|i]; simpl in *; [done|].
  destruct Hr as [Hroom _]. rewrite (proj2 (N.eqb_neq _ _)) in * by lia.
  injection Hg as <-. unfold elements in Hx. apply lookup_take_Some in Hx.
  by destruct Hx.
Qed.

(** [PushBack] of an object outside the array, or of an element of a
    container with room. *)
Lemma PushBack_run v (item : reference T) (x : T) :
  wf v -> readable v item -> referent v item = Some x ->
  ((size_ v < capacity_ v)%N \/ (size_ v < 2 ^ 63)%N) ->
  exists v',
    PushBack uninit v item = Returns tt v' /\
    PushBack_rvalue uninit v item = Returns tt v' /\
    wf v' /\
    elements v' = elements v ++ [x] /\
    size_ v' = (size_ v + 1)%N /\
    capacity_ v' = grown_capacity v.
Proof.
  intros Hwf Hread Hx Hroom.
  destruct (grow_run v Hwf Hroom) as (v1 & Hg & Hwf1 & He & Hs & Hc & Hlt).
  pose proof (read_after_grow v v1 item x Hread Hx Hg) as Hrd.
  unfold PushBack, PushBack_rvalue. cbv zeta. rewrite Hg. cbn [bind].
  rewrite Hrd. cbn [defined].
  pose proof Hwf1 as (Hsc1 & Hl1 & Hr1). unfold size_t.in_range in Hr1.
  rewrite to_nat_end, store_Some by lia. cbn [defined].
  rewrite incr_small by lia.
  eexists. do 2 (split; [reflexivity|]).
  split; [unfold wf; simpl; rewrite length_insert; repeat split; try done; lia|].
  split; [|split; [simpl; lia|by rewrite <- Hc]].
  rewrite <- He. unfold elements; simpl.
  replace (N.to_nat (size_ v1 + 1)) with (S (N.to_nat (size_ v1))) by lia.
  by rewrite take_S_insert by lia.
Qed.




Lemma wf_default : wf (@SimpleVector_default T).
Proof. unfold wf, size_t.in_range, size_t.modulus; simpl. repeat split; lia. Qed.






(** [Insert] of an object outside the array, or of an element of a
    container with room: the value written is the one read after the
    shift. *)
Lemma Insert_run v (pos : Iterator) (value : reference T) :
  wf v -> (0 <= pos <= Z.of_N (size_ v))%Z -> readable v value ->
  ((size_ v < capacity_ v)%N \/ (size_ v < 2 ^ 63)%N) ->
  exists x v',
    Insert uninit v pos value = Returns pos v' /\
    Insert_rvalue uninit v pos value = Returns pos v' /\
    wf v' /\
    elements v' =
      take (Z.to_nat pos) (elements v) ++ x :: drop (Z.to_nat pos) (elements v) /\
    size_ v' = (size_ v + 1)%N /\
    capacity_ v' = grown_capacity v /\
    match value with
    | Outside y => x = y
    | Slot i =>
        elements v !! (if decide (i <= Z.to_nat pos)%nat then i else (i - 1)%nat) = Some x
    end.
Proof.
  intros Hwf Hpos Hread Hroom.
  destruct (grow_run v Hwf Hroom) as (v1 & Hg & Hwf1 & He & Hs & Hc & Hlt).
  pose proof Hwf1 as (Hsc1 & Hl1 & Hr1). unfold size_t.in_range in Hr1.
  unfold Insert, Insert_rvalue, std.move_backward. cbv zeta.
  rewrite bool_decide_true by (unfold begin, end_; lia).
  rewrite Hg. cbn [bind]. unfold begin.
  rewrite Z.sub_0_r, Z.add_0_l, to_nat_end, to_nat_end_succ.
  rewrite copy_backward_spec by lia. cbn [defined].
  destruct (read_reference _ _ value) as [x|] eqn:Hx.
  2:{ exfalso. destruct value as [y|i]; simpl in Hx; [done|].
      destruct Hread as [Hlt' Hi]. rewrite (proj2 (N.eqb_neq _ _)) in Hx by lia.
      unfold ArrayPtr.load in Hx. rewrite shifted_lookup in Hx by lia.
      apply lookup_ge_None in Hx. case_decide; lia. }
  cbn [defined].
  rewrite store_Some by (rewrite !length_app, !length_take, !length_drop; lia).
  cbn [defined]. rewrite incr_small by lia.
  exists x. eexists. do 2 (split; [reflexivity|]).
  split; [|split; [|split; [simpl; lia|split; [by rewrite <- Hc|]]]].
  - unfold wf; simpl. rewrite length_insert, !length_app, !length_take, !length_drop.
    repeat split; try done; lia.
  - rewrite <- He. unfold elements; simpl.
    replace (N.to_nat (size_ v1 + 1)) with (S (N.to_nat (size_ v1))) by lia.
    apply shifted_right; lia.
  - destruct value as [y|i]; simpl in Hx; [by injection Hx|].
    destruct Hread as [Hlt' Hi]. rewrite (proj2 (N.eqb_neq _ _)) in Hx, Hg by lia.
    injection Hg as <-.
    unfold ArrayPtr.load in Hx. rewrite shifted_lookup in Hx by lia.
    unfold elements. rewrite lookup_take_lt by (case_decide; lia). exact Hx.
Qed.

(** X24.  For a container holding fewer than [2^63] elements, a position
    at offset [p] with [0 <= p <= size], and a value that is an object
    outside the container, both forms of [Insert] first grow a full
    container by the doubling policy (0 to 1, otherwise times 2), shift
    the elements at offsets [p, size) one slot toward the end, write the
    value at offset [p], add one to the size and return the iterator at
    offset [p] of the array as it is after the call. *)
Theorem Insert_spec v (pos : Iterator) (value : T) :
  wf v -> (0 <= pos <= Z.of_N (size_ v))%Z -> (size_ v < 2 ^ 63)%N ->
  exists v',
    Insert uninit v pos (Outside value) = Returns pos v' /\
    Insert_rvalue uninit v pos (Outside value) = Returns pos v' /\
    capacity_ v' =
      (if (size_ v =? capacity_ v)%N then
         if (capacity_ v =? 0)%N then 1%N else (capacity_ v * 2)%N
       else capacity_ v) /\
    size_ v' = (size_ v + 1)%N /\
    elements v' =
      take (Z.to_nat pos) (elements v) ++ value :: drop (Z.to_nat pos) (elements v) /\
    (forall i : nat, (i < Z.to_nat pos)%nat -> elements v' !! i = elements v !! i) /\
    elements v' !! Z.to_nat pos = Some value /\
    (forall i : nat, (Z.to_nat pos <= i)%nat -> elements v' !! S i = elements v !! i) /\
    wf v'.
Proof.
  intros Hwf Hpos Hsmall. pose proof (length_elements v Hwf) as Hle.
  destruct (Insert_run v pos (Outside value) Hwf Hpos I (or_intror Hsmall))
    as (x & v' & HI & HIr & Hwf' & He' & Hs' & Hc' & ->).
  exists v'. split; [done|]. split; [done|].
  split; [done|]. split; [done|]. split; [done|].
  rewrite He'.
  split; [intros i Hi; apply lookup_inserted_before; lia|].
  split; [apply lookup_inserted_at; lia|].
  split; [intros i Hi; apply lookup_inserted_after; lia|done].
Qed.


(** C7.  For a position at offset [p] with [0 <= p < size], [Erase]
    shifts each element after offset [p] one slot toward the beginning,
    takes one from the size, leaves the capacity and the elements before
    offset [p] unchanged, and returns the iterator at offset [p]: it is
    [end()] when the last element was removed and otherwise designates the
    element that shifted into the slot. *)
Theorem Erase_spec v (pos : Iterator) :
  wf v -> (0 <= pos < Z.of_N (size_ v))%Z ->
  exists v',
    Erase v pos = Returns pos v' /\
    size_ v' = (size_ v - 1)%N /\
    capacity_ v' = capacity_ v /\
    elements v' =
      take (Z.to_nat pos) (elements v) ++ drop (S (Z.to_nat pos)) (elements v) /\
    (forall i : nat, (i < Z.to_nat pos)%nat -> elements v' !! i = elements v !! i) /\
    (forall i : nat, (Z.to_nat pos <= i)%nat -> elements v' !! i = elements v !! S i) /\
    (if decide (Z.to_nat pos = N.to_nat (size_ v) - 1)%nat
     then pos = end_ v'
     else (pos < end_ v')%Z /\
          elements v' !! Z.to_nat pos = elements v !! S (Z.to_nat pos)) /\
    wf v'.
Proof.
  intros Hwf Hpos.
  pose proof Hwf as (Hsc & Hl & Hr).
  pose proof (length_elements v Hwf) as Hle.
  unfold Erase.
  rewrite bool_decide_true by (unfold begin, end_; lia).
  unfold begin. rewrite Z.add_0_l, Z.sub_0_r, to_nat_end.
  rewrite move_within_spec by lia. simpl.
  assert (size_t.decr (size_ v) = (size_ v - 1)%N) as ->.
  { apply decr_pos; [lia|]. unfold size_t.in_range in Hr. lia. }
  eexists. split; [reflexivity|]. split; [done|]. split; [done|].
  assert (elements
            (MkSimpleVector
               (take (Z.to_nat pos) (items_ v) ++
                take (N.to_nat (size_ v) - Z.to_nat (pos + 1))
                  (drop (Z.to_nat (pos + 1)) (items_ v)) ++
                drop (Z.to_nat pos + (N.to_nat (size_ v) - Z.to_nat (pos + 1))) (items_ v))
               (size_ v - 1) (capacity_ v)) =
          take (Z.to_nat pos) (elements v) ++ drop (S (Z.to_nat pos)) (elements v)) as He.
  { unfold elements; simpl.
    replace (Z.to_nat (pos + 1)) with (S (Z.to_nat pos)) by lia.
    replace (N.to_nat (size_ v - 1)) with (N.to_nat (size_ v) - 1)%nat by lia.
    apply shifted_left; lia. }
  split; [done|]. rewrite He.
  split; [intros i Hi; apply lookup_erased_before; lia|].
  split; [intros i Hi; apply lookup_erased_after; lia|].
  split.
  - case_decide as Hlast.
    + unfold end_; simpl. lia.
    + split; [unfold end_; simpl; lia|]. apply lookup_erased_after; lia.
  - unfold wf; simpl. rewrite !length_app, !length_take, !length_drop.
    repeat split; try done; lia.
Qed.

(** C3, as the code has it.  [PopBack] on an empty container and [Erase]
    with a position outside [begin(), end()) leave the size, the capacity
    and every slot unchanged; [Erase] then returns the iterator at the same
    offset as the position it was given, whatever that offset is. *)
Theorem PopBack_empty_Erase_outside v (pos : Iterator) :
  (size_ v = 0%N -> PopBack v = Returns tt v) /\
  (~ (0 <= pos < Z.of_N (size_ v))%Z -> Erase v pos = Returns pos v).
Proof.
  split.
  - intros H0. unfold PopBack, IsEmpty. by rewrite H0.
  - intros Hout. unfold Erase.
    rewrite bool_decide_false by (unfold begin, end_; lia).
    simpl. unfold begin. f_equal. lia.
Qed.

(** C5.  Both forms of [At] throw [out_of_range] exactly when
    [index >= size]; otherwise they return the element at [index], the same
    value as [operator[]]; the container is left unchanged either way. *)
Theorem At_spec v (index : N) :
  wf v ->
  ((size_ v <= index)%N <-> exists e, At v index = Throws e v) /\
  ((size_ v <= index)%N <-> exists e, At_const v index = Throws e v) /\
  ((size_ v <= index)%N ->
     At v index = Throws (out_of_range "index >= size") v /\
     At_const v index = Throws (out_of_range "index >= size") v) /\
  ((index < size_ v)%N ->
     exists x,
       elements v !! N.to_nat index = Some x /\
       At v index = Returns x v /\
       At_const v index = Returns x v /\
       subscript v index = Returns x v).
Proof.
  intros Hwf. pose proof (wf_size_le_length v Hwf) as Hlen.
  assert ((index < size_ v)%N ->
     exists x,
       elements v !! N.to_nat index = Some x /\
       At v index = Returns x v /\
       At_const v index = Returns x v /\
       subscript v index = Returns x v) as Hin.
  { intros Hlt. unfold At, At_const, subscript, elements.
    rewrite (proj2 (N.leb_gt _ _) Hlt).
    destruct (load_Some (items_ v) (N.to_nat index)) as [x Hx]; [lia|].
    rewrite Hx. exists x. split; [|done].
    rewrite lookup_take_lt by lia. exact Hx. }
  assert ((size_ v <= index)%N ->
     At v index = Throws (out_of_range "index >= size") v /\
     At_const v index = Throws (out_of_range "index >= size") v) as Hout.
  { intros Hle. unfold At, At_const. by rewrite (proj2 (N.leb_le _ _) Hle). }
  split; [|split; [|done]].
  - split; [intros Hle; destruct (Hout Hle); eauto|].
    intros [e He]. destruct (N.le_gt_cases (size_ v) index) as [|Hlt]; [done|].
    destruct (Hin Hlt) as (x & _ & Hx & _). congruence.
  - split; [intros Hle; destruct (Hout Hle); eauto|].
    intros [e He]. destruct (N.le_gt_cases (size_ v) index) as [|Hlt]; [done|].
    destruct (Hin Hlt) as (x & _ & _ & Hx & _). congruence.
Qed.

(** C8.  [Reserve] never lowers the capacity and never changes the size
    or the elements: a request above the capacity makes the capacity
    exactly the request, with the elements in an array of exactly that
    many slots, and any other request leaves the container as it was.  The
    array always has as many slots as the capacity says, and the container
    stays well formed when the request is a [size_t]. *)
Theorem Reserve_spec v (new_capacity : N) :
  wf v ->
  exists v',
    Reserve uninit v new_capacity = Returns tt v' /\
    (capacity_ v <= capacity_ v')%N /\
    size_ v' = size_ v /\
    elements v' = elements v /\
    ((capacity_ v < new_capacity)%N -> capacity_ v' = new_capacity) /\
    ((new_capacity <= capacity_ v)%N -> v' = v) /\
    length (items_ v') = N.to_nat (capacity_ v') /\
    (size_ v' <= capacity_ v')%N /\
    ((capacity_ v < new_capacity)%N ->
       length (items_ v') = N.to_nat new_capacity) /\
    (size_t.in_range new_capacity -> wf v').
Proof.
  intros Hwf. pose proof (wf_size_le_length v Hwf) as Hlen.
  pose proof Hwf as (Hsc & Hl & Hr).
  pose proof (length_elements v Hwf) as Hel.
  unfold Reserve. destruct (N.ltb_spec (capacity_ v) new_capacity) as [Hlt|Hge].
  - rewrite ReCapacity_spec by lia.
    eexists. split; [reflexivity|]. simpl.
    assert (length (elements v ++
                    drop (N.to_nat (size_ v)) (ArrayPtr.new uninit new_capacity)) =
            N.to_nat new_capacity) as Hlen'.
    { rewrite length_app, length_drop, length_new, Hel. lia. }
    split; [lia|]. split; [done|]. split.
    { unfold elements; simpl.
      rewrite take_app_le by (rewrite length_take; lia).
      rewrite take_take. f_equal. lia. }
    split; [done|]. split; [lia|]. split; [done|]. split; [lia|]. split; [done|].
    intros Hin. unfold wf; simpl. repeat split; [lia|done|done].
  - exists v. split; [done|]. split; [lia|]. split; [done|]. split; [done|].
    split; [lia|]. split; [done|]. split; [done|]. split; [done|].
    split; [lia|]. by intros _.
Qed.

Lemma SimpleVector_sized_spec (size : N) :
  SimpleVector_sized default_value uninit size =
    Returns tt (MkSimpleVector (replicate (N.to_nat size) default_value) size size).
Proof.
  unfold SimpleVector_sized.
  rewrite fill_spec by (rewrite length_new; lia). simpl.
  rewrite Nat.sub_0_r, drop_ge, app_nil_r by (rewrite length_new; lia).
  done.
Qed.

Lemma SimpleVector_copy_spec other :
  wf other ->
  SimpleVector_copy default_value uninit other =
    Returns tt (MkSimpleVector (elements other) (size_ other) (size_ other)).
Proof.
  intros Hwf. pose proof (wf_size_le_length other Hwf) as Hlen.
  unfold SimpleVector_copy, GetSize. simpl.
  rewrite SimpleVector_sized_spec. simpl.
  unfold begin. rewrite to_nat_end. simpl.
  rewrite copy_spec by (rewrite ?length_replicate; lia). simpl.
  rewrite Nat.sub_0_r, drop_0, drop_ge, app_nil_r by (rewrite length_replicate; lia).
  done.
Qed.

Lemma op_eq_spec lhs rhs :
  (N.to_nat (size_ lhs) <= length (items_ lhs))%nat ->
  (N.to_nat (size_ rhs) <= length (items_ rhs))%nat ->
  exists r : bool,
    op_eq eqb lhs rhs = Some r /\
    (r = true <->
     size_ lhs = size_ rhs /\
     Forall2 (fun x y => eqb x y = true) (elements lhs) (elements rhs)).
Proof.
  intros Hl Hr. unfold op_eq, GetSize.
  destruct (N.eqb_spec (size_ lhs) (size_ rhs)) as [Heq|Hne].
  - unfold std.equal, begin. rewrite to_nat_end. simpl.
    destruct (equal_loop_spec eqb (N.to_nat (size_ lhs) - 0) (items_ lhs) 0 (items_ rhs) 0)
      as (r & Hr' & Hiff); [lia|lia|].
    exists r. split; [done|]. rewrite Hiff.
    unfold elements. rewrite Nat.sub_0_r, !drop_0, <- Heq.
    split; [intros H; by split|by intros [_ H]].
  - exists false. split; [done|]. split; [done|]. by intros [H _].
Qed.

Lemma op_lt_spec lhs rhs :
  (N.to_nat (size_ lhs) <= length (items_ lhs))%nat ->
  (N.to_nat (size_ rhs) <= length (items_ rhs))%nat ->
  exists r : bool,
    op_lt ltb lhs rhs = Some r /\
    (r = true <-> lex_less ltb (elements lhs) (elements rhs)).
Proof.
  intros Hl Hr. unfold op_lt, std.lexicographical_compare, begin.
  rewrite !to_nat_end. simpl.
  destruct (lexicographical_compare_loop_spec ltb (N.to_nat (size_ lhs) - 0)
              (items_ lhs) 0 (items_ rhs) 0 (N.to_nat (size_ rhs) - 0))
    as (r & Hr' & Hiff); [lia|lia|].
  exists r. split; [done|]. rewrite Hiff.
  unfold elements. by rewrite !Nat.sub_0_r, !drop_0.
Qed.

Lemma Forall2_eqb_refl (l : list T) :
  (forall x, eqb x x = true) -> Forall2 (fun x y => eqb x y = true) l l.
Proof. intros Hrefl. induction l; constructor; auto. Qed.

Lemma Forall2_eqb_sym (l1 l2 : list T) :
  (forall x y, eqb x y = eqb y x) ->
  Forall2 (fun x y => eqb x y = true) l1 l2 ->
  Forall2 (fun x y => eqb x y = true) l2 l1.
Proof.
  intros Hsym H. induction H; constructor; [|done]. by rewrite Hsym.
Qed.

(** C9.  [a == b] holds exactly when the sizes agree and the elements
    are pairwise equal in index order, and [a != b] is its negation;
    [a < b] holds exactly when the elements of [a] come before those of [b]
    in the lexicographic order, and [<=], [>], [>=] are [!(b < a)],
    [b < a] and [!(a < b)].  With a reflexive element equality [a == a]
    holds and two containers built from the same initializer list are
    equal; with a symmetric element equality [b == a] is [a == b]. *)
Theorem comparison_spec lhs rhs :
  wf lhs -> wf rhs ->
  exists eq lt gt : bool,
    op_eq eqb lhs rhs = Some eq /\
    op_ne eqb lhs rhs = Some (negb eq) /\
    (eq = true <->
     size_ lhs = size_ rhs /\
     Forall2 (fun x y => eqb x y = true) (elements lhs) (elements rhs)) /\
    op_lt ltb lhs rhs = Some lt /\
    (lt = true <-> lex_less ltb (elements lhs) (elements rhs)) /\
    op_lt ltb rhs lhs = Some gt /\
    op_gt ltb lhs rhs = Some gt /\
    op_le ltb lhs rhs = Some (negb gt) /\
    op_ge ltb lhs rhs = Some (negb lt) /\
    ((forall x, eqb x x = true) -> op_eq eqb lhs lhs = Some true) /\
    ((forall x y, eqb x y = eqb y x) -> op_eq eqb rhs lhs = Some eq) /\
    ((forall x, eqb x x = true) ->
     forall (init : list T) (uninit' : N -> nat -> T),
     exists c c',
       SimpleVector_init uninit init = Returns tt c /\
       SimpleVector_init uninit' init = Returns tt c' /\
       elements c = init /\ elements c' = init /\
       op_eq eqb c c' = Some true).
Proof.
  intros Hwfl Hwfr.
  pose proof (wf_size_le_length lhs Hwfl) as Hl.
  pose proof (wf_size_le_length rhs Hwfr) as Hr.
  destruct (op_eq_spec lhs rhs Hl Hr) as (eq & Heq & Heqiff).
  destruct (op_lt_spec lhs rhs Hl Hr) as (lt & Hlt & Hltiff).
  destruct (op_lt_spec rhs lhs Hr Hl) as (gt & Hgt & _).
  exists eq, lt, gt.
  split; [done|]. split; [unfold op_ne; by rewrite Heq|]. split; [done|].
  split; [done|]. split; [done|]. split; [done|]. split; [done|].
  split; [unfold op_le; by rewrite Hgt|].
  split; [unfold op_ge; by rewrite Hlt|].
  split; [|split].
  - intros Hrefl. destruct (op_eq_spec lhs lhs Hl Hl) as (r & Hr' & Hiff).
    rewrite Hr'. f_equal. apply Hiff. split; [done|]. by apply Forall2_eqb_refl.
  - intros Hsym. destruct (op_eq_spec rhs lhs Hr Hl) as (r & Hr' & Hiff).
    rewrite Hr'. f_equal. apply eq_true_iff_eq. rewrite Hiff, Heqiff.
    split; intros [? ?]; (split; [done|]); by apply Forall2_eqb_sym.
  - intros Hrefl init uninit'.
    exists (MkSimpleVector init (N.of_nat (length init)) (N.of_nat (length init))).
    exists (MkSimpleVector init (N.of_nat (length init)) (N.of_nat (length init))).
    split; [apply SimpleVector_init_spec|].
    split; [apply (SimpleVector_init_spec)|].
    assert (elements (MkSimpleVector init (N.of_nat (length init)) (N.of_nat (length init)))
            = init) as He.
    { unfold elements; simpl. apply take_ge. lia. }
    split; [done|]. split; [done|].
    match goal with |- op_eq eqb ?c ?c = _ =>
      destruct (op_eq_spec c c) as (r & Hr' & Hiff); [simpl; lia|simpl; lia|] end.
    rewrite Hr'. f_equal. apply Hiff. split; [done|]. by apply Forall2_eqb_refl.
Qed.

Lemma wf_copy other :
  wf other -> wf (MkSimpleVector (elements other) (size_ other) (size_ other)).
Proof.
  intros Hwf. pose proof (length_elements other Hwf) as Hle.
  destruct Hwf as (Hsc & Hl & Hr). unfold wf, size_t.in_range in *; simpl.
  repeat split; [lia|done|lia].
Qed.

(** C10.  Copy construction from [other], and copy assignment from
    [other] to a different object, give a container with the size and
    elements of [other] and with capacity equal to the size of [other],
    whatever the capacity of [other]; copy assignment of an object to
    itself changes nothing. *)
Theorem copy_capacity_is_size other :
  wf other ->
  exists c,
    SimpleVector_copy default_value uninit other = Returns tt c /\
    size_ c = size_ other /\
    elements c = elements other /\
    capacity_ c = size_ other /\
    wf c /\
    (forall (objects : gmap nat (SimpleVector T)) (this rhs : nat) (old : SimpleVector T),
       objects !! this = Some old -> objects !! rhs = Some other -> this <> rhs ->
       copy_assign default_value uninit objects this rhs = Some (<[this := c]> objects)) /\
    (forall (objects : gmap nat (SimpleVector T)) (this : nat),
       objects !! this = Some other ->
       copy_assign default_value uninit objects this this = Some objects).
Proof.
  intros Hwf. pose proof (length_elements other Hwf) as Hle.
  exists (MkSimpleVector (elements other) (size_ other) (size_ other)).
  split; [by apply SimpleVector_copy_spec|]. split; [done|].
  split; [unfold elements at 1; simpl; apply take_ge; lia|].
  split; [done|]. split; [by apply wf_copy|]. split.
  - intros objects this rhs old Hthis Hrhs Hne. unfold copy_assign.
    rewrite Hthis, Hrhs. simpl. rewrite bool_decide_true by done.
    by rewrite SimpleVector_copy_spec.
  - intros objects this Hthis. unfold copy_assign.
    rewrite Hthis. simpl. by rewrite bool_decide_false by (intros H; by apply H).
Qed.

Lemma SimpleVector_move_spec other :
  SimpleVector_move other = Some (other, MkSimpleVector [] 0 0).
Proof. by destruct other. Qed.

Lemma move_assign_spec this other :
  move_assign this other =
    (other, MkSimpleVector [] (size_ other) (capacity_ other)).
Proof. by destruct other. Qed.

End SimpleVector_facts.

(** * The claims at concrete containers *)

Lemma wf_example_vector : wf example_vector.
Proof. unfold wf, size_t.in_range, size_t.modulus; simpl. repeat split; lia. Defined.

Lemma wf_example_full : wf example_full.
Proof. unfold wf, size_t.in_range, size_t.modulus; simpl. repeat split; lia. Defined.



(** C2 on the code: after [b = std::move(a)] with [a] holding 1, 2, 3, the
    defaulted move assignment has given [b] the elements, size and capacity
    of [a], and has left [a] with size 3 and capacity 3 where the move
    constructor leaves 0 and 0. *)
Lemma move_assign_leaves_source_counters :
  move_assign (@SimpleVector_default Z) example_full =
    (MkSimpleVector [1; 2; 3]%Z 3 3, MkSimpleVector [] 3 3) /\
  SimpleVector_move example_full =
    Some (MkSimpleVector [1; 2; 3]%Z 3 3, MkSimpleVector [] 0 0).
Proof. split; reflexivity. Qed.

(** C3 read literally fails: for a position inside the allocated array but
    past the last element, the returned iterator is not brought back into
    the range of the container. *)
Lemma Erase_outside_not_clamped :
  wf example_vector /\
  ~ (0 <= 3 < Z.of_N (size_ example_vector))%Z /\
  (3 <= Z.of_N (capacity_ example_vector))%Z /\
  ~ (exists (it : Iterator) v',
       Erase example_vector 3%Z = Returns it v' /\
       (begin v' <= it <= end_ v')%Z).
Proof.
  split; [exact wf_example_vector|]. split; [simpl; lia|]. split; [simpl; lia|].
  intros (it & v' & HE & Hit). vm_compute in HE. injection HE as <- <-.
  vm_compute in Hit. destruct Hit as [_ Hit]. by apply Hit.
Qed.

Lemma PopBack_empty_Erase_outside_witness :
  size_ example_cleared = 0%N /\
  ~ (0 <= 2 < Z.of_N (size_ example_cleared))%Z /\
  PopBack example_cleared = Returns tt example_cleared /\
  Erase example_cleared 2%Z = Returns 2%Z example_cleared.
Proof.
  assert (~ (0 <= 2 < Z.of_N (size_ example_cleared))%Z) as Hout by (simpl; lia).
  split; [reflexivity|]. split; [exact Hout|].
  destruct (PopBack_empty_Erase_outside example_cleared 2%Z) as [Hpop Herase].
  split; [exact (Hpop eq_refl)|exact (Herase Hout)].
Defined.

(** C4 on the code: the second [PushBack] on a container built by one
    [PushBack] finds it full; pushing the container's own first element,
    as in [v.PushBack(v[0])], reads the element after [ReCapacity] has
    released the array that held it, where pushing the same value from an
    object outside the container appends it. *)
Lemma PushBack_own_element_when_full :
  PushBack example_uninit (@SimpleVector_default Z) (Outside 1%Z) =
    Returns tt (MkSimpleVector [1]%Z 1 1) /\
  referent (MkSimpleVector [1]%Z 1 1) (Slot 0) = Some 1%Z /\
  PushBack example_uninit (MkSimpleVector [1]%Z 1 1) (Slot 0) = Undefined /\
  PushBack_rvalue example_uninit (MkSimpleVector [1]%Z 1 1) (Slot 0) = Undefined /\
  PushBack example_uninit (MkSimpleVector [1]%Z 1 1) (Outside 1%Z) =
    Returns tt (MkSimpleVector [1; 1]%Z 2 2).
Proof. repeat split; reflexivity. Qed.

(** C6 on the code: inserting at [begin()] the container's own element at
    index 1, as in [v.Insert(v.begin(), v[1])] on the elements 7, 8 with
    capacity 4, writes 7 and not 8, because the element is read after the
    shift; on a full container the element is read after [ReCapacity] has
    released the array that held it. *)
Lemma Insert_own_element :
  referent example_vector (Slot 1) = Some 8%Z /\
  Insert example_uninit example_vector 0%Z (Slot 1) =
    Returns 0%Z (MkSimpleVector [7; 7; 8; 0]%Z 3 4) /\
  Insert_rvalue example_uninit example_vector 0%Z (Slot 1) =
    Returns 0%Z (MkSimpleVector [7; 7; 8; 0]%Z 3 4) /\
  Insert example_uninit example_vector 0%Z (Outside 8%Z) =
    Returns 0%Z (MkSimpleVector [8; 7; 8; 0]%Z 3 4) /\
  Insert example_uninit example_full 0%Z (Slot 1) = Undefined /\
  Insert_rvalue example_uninit example_full 0%Z (Slot 1) = Undefined.
Proof. repeat split; reflexivity. Qed.


Lemma At_spec_witness :
  wf example_vector /\
  At example_vector 1 = Returns 8%Z example_vector /\
  At_const example_vector 1 = Returns 8%Z example_vector /\
  At example_vector 2 = Throws (out_of_range "index >= size") example_vector.
Proof.
  split; [exact wf_example_vector|].
  destruct (At_spec example_vector 1 wf_example_vector) as (_ & _ & _ & Hin).
  destruct (At_spec example_vector 2 wf_example_vector) as (_ & _ & Hout & _).
  destruct Hin as (x & Hx & HA & HAc & _); [simpl; lia|].
  injection Hx as <-.
  split; [exact HA|]. split; [exact HAc|].
  apply Hout. simpl; lia.
Defined.

Lemma Insert_spec_witness :
  wf example_full /\
  (0 <= 1 <= Z.of_N (size_ example_full))%Z /\
  (size_ example_full < 2 ^ 63)%N /\
  exists v',
    Insert example_uninit example_full 1%Z (Outside 9%Z) = Returns 1%Z v' /\
    Insert_rvalue example_uninit example_full 1%Z (Outside 9%Z) = Returns 1%Z v' /\
    elements v' = [1; 9; 2; 3]%Z /\ size_ v' = 4%N /\ capacity_ v' = 6%N.
Proof.
  assert (0 <= 1 <= Z.of_N (size_ example_full))%Z as Hpos by (simpl; lia).
  assert (size_ example_full < 2 ^ 63)%N as Hsmall by (simpl; lia).
  split; [exact wf_example_full|]. split; [exact Hpos|]. split; [exact Hsmall|].
  destruct (Insert_spec example_uninit example_full 1%Z 9%Z wf_example_full Hpos Hsmall)
    as (v' & HI & HIr & Hc & Hs & He & _).
  exists v'. split; [exact HI|]. split; [exact HIr|].
  split; [exact He|]. split; [exact Hs|exact Hc].
Defined.

Lemma Erase_spec_witness :
  wf example_full /\
  (0 <= 1 < Z.of_N (size_ example_full))%Z /\
  exists v',
    Erase example_full 1%Z = Returns 1%Z v' /\
    elements v' = [1; 3]%Z /\ size_ v' = 2%N /\ capacity_ v' = 3%N.
Proof.
  assert (0 <= 1 < Z.of_N (size_ example_full))%Z as Hpos by (simpl; lia).
  split; [exact wf_example_full|]. split; [exact Hpos|].
  destruct (Erase_spec example_full 1%Z wf_example_full Hpos)
    as (v' & HE & Hs & Hc & He & _).
  exists v'. split; [exact HE|]. split; [exact He|]. split; [exact Hs|exact Hc].
Defined.

Lemma Reserve_spec_witness :
  wf example_vector /\
  exists v',
    Reserve example_uninit example_vector 10 = Returns tt v' /\
    capacity_ v' = 10%N /\ size_ v' = 2%N /\ elements v' = [7; 8]%Z /\
    length (items_ v') = 10%nat.
Proof.
  split; [exact wf_example_vector|].
  destruct (Reserve_spec example_uninit example_vector 10 wf_example_vector)
    as (v' & HR & _ & Hs & He & Hgrow & _ & _ & _ & Hslots & _).
  exists v'. split; [exact HR|]. split; [apply Hgrow; simpl; lia|].
  split; [exact Hs|]. split; [exact He|]. apply Hslots. simpl; lia.
Defined.

Lemma comparison_spec_witness :
  wf example_full /\ wf example_vector /\
  op_eq Z.eqb example_full example_vector = Some false /\
  op_lt Z.ltb example_full example_vector = Some true /\
  op_ge Z.ltb example_full example_vector = Some false /\
  op_eq Z.eqb example_full example_full = Some true.
Proof.
  split; [exact wf_example_full|]. split; [exact wf_example_vector|].
  destruct (comparison_spec example_uninit Z.eqb Z.ltb example_full example_vector
              wf_example_full wf_example_vector)
    as (eq & lt & gt & Heq & _ & _ & Hlt & _ & _ & _ & _ & Hge & Hrefl & _).
  assert (eq = false) as -> by (vm_compute in Heq; congruence).
  assert (lt = true) as -> by (vm_compute in Hlt; congruence).
  split; [exact Heq|]. split; [exact Hlt|]. split; [exact Hge|].
  apply Hrefl. intros x. apply Z.eqb_refl.
Defined.

Lemma copy_capacity_is_size_witness :
  wf example_vector /\
  exists c,
    SimpleVector_copy 0%Z example_uninit example_vector = Returns tt c /\
    capacity_ example_vector = 4%N /\
    size_ c = 2%N /\ elements c = [7; 8]%Z /\ capacity_ c = 2%N.
Proof.
  split; [exact wf_example_vector|].
  destruct (copy_capacity_is_size 0%Z example_uninit example_vector wf_example_vector)
    as (c & HC & Hs & He & Hc & _).
  exists c. split; [exact HC|]. split; [reflexivity|].
  split; [exact Hs|]. split; [exact He|exact Hc].
Defined.

(** The example run of the specification: three pushes, an erase at
    [begin() + 1] and an insert at [begin()]. *)
Example push_erase_insert :
  (do _, v <- PushBack example_uninit SimpleVector_default (Outside 1%Z);
   do _, v <- PushBack example_uninit v (Outside 2%Z);
   do _, v <- PushBack example_uninit v (Outside 3%Z);
   do it, v <- Erase v (begin v + 1)%Z;
   Insert example_uninit v (begin v) (Outside 0%Z)) =
  Returns 0%Z (MkSimpleVector [0; 1; 3; -1]%Z 3 4).
Proof. reflexivity. Qed.

(** * Further facts: constructors, resizing, round trips and comparisons *)

Section list_facts_more.
Context {T : Type}.
Implicit Types (a src dst l : list T).

Lemma copy_loop_overrun (n : nat) : forall src (first : nat) dst (d_first : nat),
  (first + n <= length src)%nat ->
  (d_first <= length dst)%nat -> (length dst < d_first + n)%nat ->
  std.copy_loop src first n dst d_first = None.
Proof.
  induction n as [|n IH]; intros src first dst d_first Hs Hd Hover; simpl; [lia|].
  destruct (load_Some src first) as [x Hx]; [lia|].
  rewrite Hx; simpl. unfold ArrayPtr.store. case_decide as Hlt; simpl; [|done].
  apply IH; rewrite ?length_insert; lia.
Qed.

Lemma erase_inserted l (p : nat) (x : T) :
  (p <= length l)%nat ->
  take p (take p l ++ x :: drop p l) ++ drop (S p) (take p l ++ x :: drop p l) = l.
Proof.
  intros Hp.
  rewrite take_app_length' by (rewrite length_take; lia).
  rewrite (cons_middle x), app_assoc.
  rewrite drop_app_length' by (rewrite length_app, length_take; simpl; lia).
  apply take_drop.
Qed.

Lemma insert_erased l (p : nat) (x : T) :
  l !! p = Some x ->
  take p (take p l ++ drop (S p) l) ++ x :: drop p (take p l ++ drop (S p) l) = l.
Proof.
  intros Hx. pose proof (lookup_lt_Some _ _ _ Hx) as Hp.
  rewrite take_app_length' by (rewrite length_take; lia).
  rewrite drop_app_length' by (rewrite length_take; lia).
  by apply take_drop_middle.
Qed.
End list_facts_more.

Section order_facts.
Context {T : Type}.
Variable eqb : T -> T -> bool.
Variable ltb : T -> T -> bool.
Implicit Types (l : list T).

Lemma lex_less_irrefl l : (forall x, ltb x x = false) -> ~ lex_less ltb l l.
Proof.
  intros Hirr. induction l as [|x l IH]; [apply lex_less_nil_r|].
  rewrite lex_less_cons. intros [H|(_ & _ & H)]; [|done].
  by rewrite Hirr in H.
Qed.

Lemma lex_less_trans l1 : forall l2 l3,
  (forall x, ltb x x = false) ->
  (forall x y z, ltb x y = true -> ltb y z = true -> ltb x z = true) ->
  (forall x y, ltb x y = false -> ltb y x = false -> x = y) ->
  lex_less ltb l1 l2 -> lex_less ltb l2 l3 -> lex_less ltb l1 l3.
Proof.
  induction l1 as [|x l1 IH]; intros l2 l3 Hirr Htrans Hconn H12 H23.
  - destruct l3 as [|z l3]; [by apply lex_less_nil_r in H23|]. apply lex_less_nil_cons.
  - destruct l2 as [|y l2]; [by apply lex_less_nil_r in H12|].
    destruct l3 as [|z l3]; [by apply lex_less_nil_r in H23|].
    apply lex_less_cons in H12. apply lex_less_cons in H23. apply lex_less_cons.
    destruct H12 as [Hxy|(Hxy & Hyx & Ht12)]; destruct H23 as [Hyz|(Hyz & Hzy & Ht23)].
    + left. by apply (Htrans x y z).
    + left. by rewrite <- (Hconn y z Hyz Hzy).
    + left. by rewrite (Hconn x y Hxy Hyx).
    + right. rewrite (Hconn x y Hxy Hyx). split; [done|]. split; [done|].
      by apply (IH l2 l3).
Qed.

Lemma Forall2_eqb_neither_less l1 : forall l2,
  (forall x y, eqb x y = negb (ltb x y || ltb y x)) ->
  Forall2 (fun x y => eqb x y = true) l1 l2 <->
  ~ lex_less ltb l1 l2 /\ ~ lex_less ltb l2 l1.
Proof.
  induction l1 as [|x l1 IH]; intros l2 Hcompat; destruct l2 as [|y l2].
  - split; [intros _; split; apply lex_less_nil_r|intros _; constructor].
  - split; [intros H; inversion H|]. intros [H _]. destruct H. apply lex_less_nil_cons.
  - split; [intros H; inversion H|]. intros [_ H]. destruct H. apply lex_less_nil_cons.
  - rewrite !lex_less_cons. specialize (IH l2 Hcompat). split.
    + intros H. inversion H as [|? ? ? ? Hxy Ht]; subst.
      rewrite Hcompat in Hxy. apply negb_true_iff, orb_false_iff in Hxy.
      destruct Hxy as [Hxy Hyx]. apply IH in Ht. destruct Ht as [Ht1 Ht2].
      split; intros [Hlt|(_ & _ & Hl)]; congruence || done.
    + intros [H1 H2].
      destruct (ltb x y) eqn:Hxy; [destruct H1; by left|].
      destruct (ltb y x) eqn:Hyx; [destruct H2; by left|].
      constructor; [by rewrite Hcompat, Hxy, Hyx|].
      apply IH. split; intros Hl; [apply H1|apply H2]; by right.
Qed.
End order_facts.

Section SimpleVector_more.
Context {T : Type}.
Variable default_value : T.
Variable uninit : N -> nat -> T.
Variable eqb : T -> T -> bool.
Variable ltb : T -> T -> bool.
Implicit Types (v this other lhs rhs : SimpleVector T).

Lemma lookup_new (size : N) (i : nat) :
  (i < N.to_nat size)%nat -> ArrayPtr.new uninit size !! i = Some (uninit size i).
Proof.
  intros Hi. unfold ArrayPtr.new. by rewrite list_lookup_fmap, lookup_seq_lt.
Qed.

Lemma elements_full (items : list T) (n : N) :
  length items = N.to_nat n -> elements (MkSimpleVector items n n) = items.
Proof. intros Hl. unfold elements; simpl. apply take_ge. lia. Qed.

Lemma wf_full (items : list T) (n : N) :
  length items = N.to_nat n -> size_t.in_range n -> wf (MkSimpleVector items n n).
Proof. intros Hl Hr. unfold wf; simpl. repeat split; [lia|done|done]. Qed.

Lemma SimpleVector_filled_spec (size : N) (value : T) :
  SimpleVector_filled uninit size value =
    Returns tt (MkSimpleVector (replicate (N.to_nat size) value) size size).
Proof.
  unfold SimpleVector_filled.
  rewrite fill_spec by (rewrite length_new; lia). simpl.
  rewrite Nat.sub_0_r, drop_ge, app_nil_r by (rewrite length_new; lia).
  done.
Qed.

Lemma Erase_run v (pos : Iterator) :
  wf v -> (0 <= pos < Z.of_N (size_ v))%Z ->
  exists v',
    Erase v pos = Returns pos v' /\
    wf v' /\
    elements v' =
      take (Z.to_nat pos) (elements v) ++ drop (S (Z.to_nat pos)) (elements v) /\
    size_ v' = (size_ v - 1)%N /\
    capacity_ v' = capacity_ v.
Proof.
  intros Hwf Hpos. pose proof Hwf as (Hsc & Hl & Hr). unfold size_t.in_range in Hr.
  unfold Erase. rewrite bool_decide_true by (unfold begin, end_; lia).
  unfold begin. rewrite Z.add_0_l, Z.sub_0_r, to_nat_end.
  rewrite move_within_spec by lia. simpl.
  rewrite decr_pos by lia.
  eexists. split; [reflexivity|]. split; [|split; [|done]].
  - unfold wf; simpl. rewrite !length_app, !length_take, !length_drop.
    repeat split; try done; lia.
  - unfold elements; simpl.
    replace (Z.to_nat (pos + 1)) with (S (Z.to_nat pos)) by lia.
    replace (N.to_nat (size_ v - 1)) with (N.to_nat (size_ v) - 1)%nat by lia.
    apply shifted_left; lia.
Qed.

Lemma At_run v (index : N) :
  wf v -> (index < size_ v)%N ->
  exists x, elements v !! N.to_nat index = Some x /\ At v index = Returns x v.
Proof.
  intros Hwf Hlt. pose proof (wf_size_le_length v Hwf) as Hlen.
  unfold At, elements. rewrite (proj2 (N.leb_gt _ _) Hlt).
  destruct (load_Some (items_ v) (N.to_nat index)) as [x Hx]; [lia|].
  rewrite Hx. exists x. split; [|done].
  rewrite lookup_take_lt by lia. exact Hx.
Qed.

Lemma Reserve_run v (new_capacity : N) :
  wf v -> size_t.in_range new_capacity ->
  exists v',
    Reserve uninit v new_capacity = Returns tt v' /\
    wf v' /\ elements v' = elements v /\ size_ v' = size_ v /\
    capacity_ v' = (capacity_ v `max` new_capacity)%N.
Proof.
  intros Hwf Hr. pose proof (wf_size_le_length v Hwf) as Hlen.
  pose proof Hwf as (Hsc & Hl & Hrc).
  unfold Reserve. destruct (N.ltb_spec (capacity_ v) new_capacity) as [Hlt|Hge].
  - destruct (ReCapacity_wf uninit v new_capacity _ Hlen ltac:(lia) Hr
                (ReCapacity_spec uninit v new_capacity Hlen ltac:(lia)))
      as (Hwf' & He & Hs & Hc).
    eexists. split; [apply ReCapacity_spec; lia|].
    split; [done|]. split; [done|]. split; [done|]. rewrite Hc. lia.
  - exists v. split; [done|]. split; [done|]. split; [done|]. split; [done|]. lia.
Qed.

Lemma Resize_middle v (new_size : N) :
  wf v -> (size_ v < new_size)%N -> (new_size <= capacity_ v)%N ->
  Resize default_value uninit v new_size =
    Returns tt (MkSimpleVector
                  (elements v ++
                   replicate (N.to_nat new_size - N.to_nat (size_ v)) default_value)
                  new_size new_size).
Proof.
  intros Hwf Hlt Hle. pose proof (wf_size_le_length v Hwf) as Hlen.
  pose proof (length_elements v Hwf) as Hel.
  unfold Resize.
  rewrite (proj2 (N.ltb_lt _ _) Hlt), (proj2 (N.leb_le _ _) Hle).
  unfold std.move.
  rewrite copy_spec by (rewrite ?length_new; lia).
  simpl. rewrite Nat.sub_0_r, drop_0. fold (elements v).
  rewrite for_each_assign_spec; simpl.
  2:{ rewrite length_app, length_drop, length_new. lia. }
  rewrite (take_app_length' (elements v)) by lia.
  rewrite (drop_ge (elements v ++ _)), app_nil_r; [done|].
  rewrite length_app, length_drop, length_new. lia.
Qed.

Lemma Resize_beyond v (new_size : N) :
  wf v -> (capacity_ v < new_size)%N -> (new_size < 2 ^ 63)%N ->
  Resize default_value uninit v new_size =
    Returns tt (MkSimpleVector
                  (elements v ++
                   drop (N.to_nat (size_ v)) (ArrayPtr.new uninit (new_size * 2)))
                  new_size (new_size * 2)).
Proof.
  intros Hwf Hlt Hsmall. pose proof (wf_size_le_length v Hwf) as Hlen.
  pose proof Hwf as (Hsc & Hl & Hr).
  unfold Resize.
  rewrite (proj2 (N.ltb_lt _ _)) by lia. rewrite (proj2 (N.leb_gt _ _)) by lia.
  rewrite double_small by done.
  by rewrite ReCapacity_spec by lia.
Qed.

Lemma Resize_run v (new_size : N) :
  wf v -> (new_size < 2 ^ 63)%N ->
  exists v',
    Resize default_value uninit v new_size = Returns tt v' /\
    wf v' /\
    size_ v' = new_size /\
    (forall i : nat, (i < N.to_nat (size_ v))%nat -> (i < N.to_nat new_size)%nat ->
       elements v' !! i = elements v !! i).
Proof.
  intros Hwf Hsmall. pose proof (wf_size_le_length v Hwf) as Hlen.
  pose proof (length_elements v Hwf) as Hel.
  pose proof Hwf as (Hsc & Hl & Hr). unfold size_t.in_range, size_t.modulus in *.
  assert (2 ^ 64 = 2 ^ 63 * 2)%N as H64 by done.
  destruct (N.le_gt_cases new_size (size_ v)) as [Hshrink|Hgrow].
  - unfold Resize. rewrite (proj2 (N.ltb_ge _ _) Hshrink). simpl.
    eexists. split; [reflexivity|].
    split; [unfold wf, size_t.in_range, size_t.modulus; simpl; repeat split; try done; lia|].
    split; [done|]. intros i Hi Hn. unfold elements; simpl.
    by rewrite !lookup_take_lt by lia.
  - destruct (N.le_gt_cases new_size (capacity_ v)) as [Hmid|Hbeyond].
    + rewrite Resize_middle by done. eexists. split; [reflexivity|].
      split; [apply wf_full; [rewrite length_app, length_replicate|]; unfold size_t.in_range, size_t.modulus; lia|].
      split; [done|]. intros i Hi Hn.
      rewrite elements_full by (rewrite length_app, length_replicate; lia).
      apply lookup_app_l. lia.
    + rewrite Resize_beyond by done. eexists. split; [reflexivity|].
      split.
      { unfold wf, size_t.in_range, size_t.modulus; simpl.
        rewrite length_app, length_drop, length_new. repeat split; lia. }
      split; [done|]. intros i Hi Hn. unfold elements at 1; simpl.
      rewrite lookup_take_lt by lia. apply lookup_app_l. lia.
Qed.

End SimpleVector_more.

Section SimpleVector_extra.
Context {T : Type}.
Variable default_value : T.
Variable uninit : N -> nat -> T.
Variable eqb : T -> T -> bool.
Variable ltb : T -> T -> bool.
Implicit Types (v this other lhs rhs : SimpleVector T).

(** X1.  [SimpleVector(size)] builds a container of exactly [size]
    elements, all equal to [Type()], with capacity [size]. *)
Theorem SimpleVector_sized_elements (size : N) :
  size_t.in_range size ->
  exists v,
    SimpleVector_sized default_value uninit size = Returns tt v /\
    wf v /\ size_ v = size /\ capacity_ v = size /\
    elements v = replicate (N.to_nat size) default_value.
Proof.
  intros Hr. rewrite SimpleVector_sized_spec. eexists. split; [reflexivity|].
  split; [apply wf_full; [by rewrite length_replicate|done]|].
  split; [done|]. split; [done|]. apply elements_full. by rewrite length_replicate.
Qed.

(** X2.  [SimpleVector(size, value)] builds a container of exactly [size]
    elements, all equal to [value], with capacity [size]. *)
Theorem SimpleVector_filled_elements (size : N) (value : T) :
  size_t.in_range size ->
  exists v,
    SimpleVector_filled uninit size value = Returns tt v /\
    wf v /\ size_ v = size /\ capacity_ v = size /\
    elements v = replicate (N.to_nat size) value.
Proof.
  intros Hr. rewrite SimpleVector_filled_spec. eexists. split; [reflexivity|].
  split; [apply wf_full; [by rewrite length_replicate|done]|].
  split; [done|]. split; [done|]. apply elements_full. by rewrite length_replicate.
Qed.

(** X3.  [SimpleVector(init)] holds the elements of the initializer list
    in order, with size and capacity equal to its length. *)
Theorem SimpleVector_init_elements (init : list T) :
  size_t.in_range (N.of_nat (length init)) ->
  exists v,
    SimpleVector_init uninit init = Returns tt v /\
    wf v /\ size_ v = N.of_nat (length init) /\ capacity_ v = N.of_nat (length init) /\
    elements v = init.
Proof.
  intros Hr. rewrite SimpleVector_init_spec. eexists. split; [reflexivity|].
  split; [apply wf_full; [lia|done]|].
  split; [done|]. split; [done|]. apply elements_full. lia.
Qed.

(** X4.  [SimpleVector(Reserve(n))] is empty and has capacity exactly
    [n], also for [n = 0]. *)
Theorem SimpleVector_reserved_empty (capacity_to_reserve : N) :
  size_t.in_range capacity_to_reserve ->
  exists v,
    SimpleVector_reserved uninit (Reserve_proxy capacity_to_reserve) = Returns tt v /\
    wf v /\ size_ v = 0%N /\ capacity_ v = capacity_to_reserve /\
    elements v = [] /\ IsEmpty v = true.
Proof.
  intros Hr. unfold SimpleVector_reserved, Reserve_proxy. simpl.
  destruct (Reserve_run uninit SimpleVector_default capacity_to_reserve wf_default Hr)
    as (v & HR & Hwf & He & Hs & Hc).
  exists v. split; [done|]. split; [done|]. split; [done|].
  split; [rewrite Hc; simpl; lia|]. split; [by rewrite He|].
  unfold IsEmpty. by rewrite Hs.
Qed.

(** X5.  [Clear] keeps the array and the capacity and leaves no element:
    afterwards [At] throws for every index. *)
Theorem Clear_empties v :
  wf v ->
  exists v',
    Clear v = Returns tt v' /\
    wf v' /\ items_ v' = items_ v /\ capacity_ v' = capacity_ v /\
    size_ v' = 0%N /\ elements v' = [] /\
    forall index : N, At v' index = Throws (out_of_range "index >= size") v'.
Proof.
  intros (Hsc & Hl & Hr). eexists. split; [reflexivity|].
  split; [unfold wf; simpl; repeat split; try done; lia|].
  do 4 (split; [done|]).
  intros index. unfold At; simpl. by rewrite (proj2 (N.leb_le 0 index)) by lia.
Qed.

(** X6.  [Resize] to a size not above the current one only lowers the
    size: the array and the capacity are kept and the first [new_size]
    elements remain. *)
Theorem Resize_shrink v (new_size : N) :
  wf v -> (new_size <= size_ v)%N ->
  exists v',
    Resize default_value uninit v new_size = Returns tt v' /\
    wf v' /\ items_ v' = items_ v /\ capacity_ v' = capacity_ v /\
    size_ v' = new_size /\
    elements v' = take (N.to_nat new_size) (elements v).
Proof.
  intros Hwf Hle. pose proof Hwf as (Hsc & Hl & Hr).
  unfold Resize. rewrite (proj2 (N.ltb_ge _ _) Hle). simpl.
  eexists. split; [reflexivity|].
  split; [unfold wf; simpl; repeat split; try done; lia|].
  do 3 (split; [done|]).
  unfold elements; simpl. rewrite take_take. f_equal. lia.
Qed.

(** X7.  [Resize] above the capacity reallocates to twice the new size and
    keeps the old elements; the slots between the old and the new size are
    not assigned: they hold what the fresh array was allocated with. *)
Theorem Resize_beyond_capacity v (new_size : N) :
  wf v -> (capacity_ v < new_size)%N -> (new_size < 2 ^ 63)%N ->
  exists v',
    Resize default_value uninit v new_size = Returns tt v' /\
    wf v' /\ size_ v' = new_size /\ capacity_ v' = (new_size * 2)%N /\
    (forall i : nat, (i < N.to_nat (size_ v))%nat -> elements v' !! i = elements v !! i) /\
    (forall i : nat, (N.to_nat (size_ v) <= i < N.to_nat new_size)%nat ->
       elements v' !! i = Some (uninit (new_size * 2)%N i)).
Proof.
  intros Hwf Hlt Hsmall. pose proof (length_elements v Hwf) as Hel.
  pose proof Hwf as (Hsc & Hl & Hr). unfold size_t.in_range, size_t.modulus in Hr.
  assert (2 ^ 64 = 2 ^ 63 * 2)%N as H64 by done.
  rewrite Resize_beyond by done. eexists. split; [reflexivity|].
  split.
  { unfold wf, size_t.in_range, size_t.modulus; simpl.
    rewrite length_app, length_drop, length_new, Hel. repeat split; lia. }
  split; [done|]. split; [done|]. split.
  - intros i Hi. unfold elements at 1; simpl.
    rewrite lookup_take_lt by lia. apply lookup_app_l. lia.
  - intros i Hi. unfold elements at 1; simpl. rewrite lookup_take_lt by lia.
    rewrite lookup_app_r by lia. rewrite lookup_drop, Hel.
    replace (N.to_nat (size_ v) + (i - N.to_nat (size_ v)))%nat with i by lia.
    apply lookup_new. lia.
Qed.

(** X8.  [Resize] to [2^63] or more above the capacity computes the new
    capacity [new_size * 2] modulo [2^64]: when the elements fit in that
    many slots the call returns with a capacity below the size, and
    otherwise moving the elements overruns the new array. *)
Theorem Resize_capacity_wraps v (new_size : N) :
  wf v -> (capacity_ v < new_size)%N ->
  (2 ^ 63 <= new_size)%N -> (new_size < 2 ^ 64)%N ->
  ((size_ v <= new_size * 2 - 2 ^ 64)%N ->
     exists v',
       Resize default_value uninit v new_size = Returns tt v' /\
       size_ v' = new_size /\ capacity_ v' = (new_size * 2 - 2 ^ 64)%N /\
       (capacity_ v' < size_ v')%N /\ ~ wf v') /\
  ((new_size * 2 - 2 ^ 64 < size_ v)%N ->
     Resize default_value uninit v new_size = Undefined).
Proof.
  intros Hwf Hlt Hbig Hrange. pose proof (wf_size_le_length v Hwf) as Hlen.
  pose proof Hwf as (Hsc & Hl & Hr).
  assert (2 ^ 64 = 2 ^ 63 * 2)%N as H64 by done.
  assert (size_t.mul new_size 2 = new_size * 2 - 2 ^ 64)%N as Hmul.
  { unfold size_t.mul, size_t.wrap, size_t.modulus.
    replace (new_size * 2)%N with ((new_size * 2 - 2 ^ 64) + 1 * 2 ^ 64)%N at 1 by lia.
    rewrite N.Div0.mod_add. apply N.mod_small. lia. }
  unfold Resize.
  rewrite (proj2 (N.ltb_lt _ _)) by lia. rewrite (proj2 (N.leb_gt _ _)) by lia.
  rewrite Hmul. split.
  - intros Hfit. rewrite ReCapacity_spec by lia. simpl.
    eexists. split; [reflexivity|]. split; [done|]. split; [done|].
    split; [simpl; lia|]. intros (Hbad & _). simpl in Hbad. lia.
  - intros Hover. unfold ReCapacity, std.move, std.copy.
    rewrite decide_True by lia.
    rewrite copy_loop_overrun; [done|lia|lia|rewrite length_new; lia].
Qed.

(** X9.  After [Resize(n)] followed by [Resize(m)] with [m <= n], the size
    is [m] and every element below both [m] and the original size is the
    original one. *)
Theorem Resize_Resize v (n m : N) :
  wf v -> (n < 2 ^ 63)%N -> (m <= n)%N ->
  exists v' v'',
    Resize default_value uninit v n = Returns tt v' /\
    Resize default_value uninit v' m = Returns tt v'' /\
    wf v'' /\ size_ v'' = m /\ capacity_ v'' = capacity_ v' /\
    (forall i : nat, (i < N.to_nat m)%nat -> (i < N.to_nat (size_ v))%nat ->
       elements v'' !! i = elements v !! i).
Proof.
  intros Hwf Hn Hm.
  destruct (Resize_run default_value uninit v n Hwf Hn) as (v' & HR & Hwf' & Hs' & He').
  pose proof Hwf' as (Hsc & Hl & Hr).
  exists v'. unfold Resize at 2. rewrite (proj2 (N.ltb_ge (size_ v') m)) by lia. simpl.
  eexists. split; [done|]. split; [reflexivity|].
  split; [unfold wf; simpl; repeat split; try done; lia|].
  split; [done|]. split; [done|].
  intros i Hi Hlt. rewrite <- He' by lia.
  unfold elements; simpl. by rewrite !lookup_take_lt by lia.
Qed.

(** X10.  [PopBack] on a non-empty container removes exactly the last
    element and keeps the array and the capacity. *)
Theorem PopBack_nonempty v :
  wf v -> (0 < size_ v)%N ->
  exists v' last,
    PopBack v = Returns tt v' /\
    wf v' /\ items_ v' = items_ v /\ capacity_ v' = capacity_ v /\
    size_ v' = (size_ v - 1)%N /\
    elements v = elements v' ++ [last].
Proof.
  intros Hwf Hpos. pose proof (wf_size_le_length v Hwf) as Hlen.
  pose proof Hwf as (Hsc & Hl & Hr). unfold size_t.in_range in Hr.
  destruct (lookup_lt_is_Some_2 (items_ v) (N.to_nat (size_ v) - 1)) as [last Hlast]; [lia|].
  unfold PopBack, IsEmpty. rewrite (proj2 (N.eqb_neq _ _)) by lia. simpl.
  rewrite decr_pos by lia.
  eexists; exists last. split; [reflexivity|].
  split; [unfold wf; simpl; repeat split; try done; lia|].
  do 3 (split; [done|]).
  unfold elements; simpl.
  replace (N.to_nat (size_ v)) with (S (N.to_nat (size_ v) - 1)) at 1 by lia.
  rewrite (take_S_r _ _ last Hlast). do 2 f_equal. lia.
Qed.

(** X11.  [PushBack] of an object outside the container, or of one of
    its own elements while there is room, followed by [PopBack] gives back
    the elements and the size; the capacity stays as [PushBack] left
    it. *)
Theorem PushBack_PopBack v (item : reference T) :
  wf v -> (size_ v < 2 ^ 63)%N -> readable v item ->
  exists v1 v2,
    PushBack uninit v item = Returns tt v1 /\
    PopBack v1 = Returns tt v2 /\
    wf v2 /\ elements v2 = elements v /\ size_ v2 = size_ v /\
    capacity_ v2 = capacity_ v1 /\ (capacity_ v <= capacity_ v2)%N.
Proof.
  intros Hwf Hsmall Hread. pose proof (length_elements v Hwf) as Hel.
  destruct (readable_referent v item Hwf Hread) as [x Hx].
  destruct (PushBack_run uninit v item x Hwf Hread Hx (or_intror Hsmall))
    as (v1 & HP & _ & Hwf1 & He1 & Hs1 & Hc1).
  pose proof Hwf1 as (Hsc1 & Hl1 & Hr1). unfold size_t.in_range in Hr1.
  exists v1. unfold PopBack, IsEmpty. rewrite (proj2 (N.eqb_neq _ _)) by lia. simpl.
  rewrite decr_pos by lia.
  eexists. split; [done|]. split; [reflexivity|].
  split; [unfold wf; simpl; repeat split; try done; lia|].
  split; [|split; [simpl; lia|split; [done|]]].
  - transitivity (take (N.to_nat (size_ v)) (elements v1)).
    + unfold elements; simpl. rewrite take_take. f_equal. lia.
    + rewrite He1. apply take_app_length'. lia.
  - simpl. rewrite Hc1. unfold grown_capacity. destruct Hwf as (Hsc & _).
    destruct (size_ v =? capacity_ v)%N; [|done].
    destruct (N.eqb_spec (capacity_ v) 0); lia.
Qed.

(** X12.  After [PushBack] of an object outside the container, or of one
    of its own elements while there is room, the pushed value is read back
    by [At] at the old size, and every index that [At] could read before
    reads the same value. *)
Theorem PushBack_At v (item : reference T) (x : T) :
  wf v -> (size_ v < 2 ^ 63)%N -> readable v item -> referent v item = Some x ->
  exists v1,
    PushBack uninit v item = Returns tt v1 /\
    wf v1 /\
    At v1 (size_ v) = Returns x v1 /\
    forall (index : N) (y : T),
      At v index = Returns y v -> At v1 index = Returns y v1.
Proof.
  intros Hwf Hsmall Hread Hx. pose proof (length_elements v Hwf) as Hel.
  destruct (PushBack_run uninit v item x Hwf Hread Hx (or_intror Hsmall))
    as (v1 & HP & _ & Hwf1 & He1 & Hs1 & Hc1).
  exists v1. split; [done|]. split; [done|]. split.
  - destruct (At_run v1 (size_ v) Hwf1 ltac:(lia)) as (z & Hz & HA).
    rewrite He1, lookup_app_r, Hel, Nat.sub_diag in Hz by lia.
    by injection Hz as <-.
  - intros index y HA.
    destruct (N.le_gt_cases (size_ v) index) as [Hout|Hin].
    { unfold At in HA. by rewrite (proj2 (N.leb_le _ _) Hout) in HA. }
    destruct (At_run v index Hwf Hin) as (y' & Hy & HAy).
    rewrite HAy in HA. injection HA as ->.
    destruct (At_run v1 index Hwf1 ltac:(lia)) as (z & Hz & HAz).
    rewrite He1, lookup_app_l, Hy in Hz by lia. by injection Hz as <-.
Qed.

(** X13.  [Insert] at [end()] ends as [PushBack] does, for every
    argument: when one call is undefined so is the other, and when
    [PushBack] returns, [Insert] returns with the same elements, size and
    capacity and with the iterator that designates the new last element;
    when the container has room the two calls leave the same object and
    that iterator is the old [end()]. *)
Theorem Insert_at_end v (value : reference T) :
  wf v -> (size_ v < 2 ^ 63)%N ->
  (PushBack uninit v value = Undefined <->
   Insert uninit v (end_ v) value = Undefined) /\
  (forall v',
     PushBack uninit v value = Returns tt v' ->
     exists v'',
       Insert uninit v (end_ v) value = Returns (end_ v'' - 1)%Z v'' /\
       elements v'' = elements v' /\
       size_ v'' = size_ v' /\ capacity_ v'' = capacity_ v' /\
       ((size_ v < capacity_ v)%N -> v'' = v' /\ (end_ v'' - 1)%Z = end_ v)).
Proof.
  intros Hwf Hsmall.
  destruct (grow_spec uninit v Hwf Hsmall) as (v1 & Hg & Hwf1 & He & Hs & Hc & Hlt).
  pose proof Hwf1 as (Hsc1 & Hl1 & Hr1). unfold size_t.in_range in Hr1.
  unfold PushBack, Insert. cbv zeta.
  rewrite bool_decide_true by (unfold begin, end_; lia).
  rewrite Hg. cbn [bind]. unfold begin. rewrite Z.sub_0_r, Z.add_0_l.
  rewrite !to_nat_end, to_nat_end_succ, Hs.
  rewrite copy_backward_spec by lia.
  rewrite Nat.sub_diag, Nat.sub_0_r, take_0, app_nil_l, take_drop. cbn [defined].
  destruct (read_reference _ _ value) as [x|]; cbn [defined].
  - rewrite store_Some by lia. cbn [defined]. rewrite incr_small by lia.
    split; [split; intros H; discriminate H|].
    intros v' [= <-]. eexists. split; [|split; [done|split; [done|split; [done|]]]].
    + f_equal. unfold end_; simpl. lia.
    + intros _. split; [done|]. unfold end_; simpl. lia.
  - split; [done|]. intros v' H. discriminate H.
Qed.

(** X14.  [Insert] at a position, of an object outside the container or
    of one of its own elements while there is room, followed by [Erase] at
    the returned iterator gives back the elements and the size. *)
Theorem Insert_Erase v (pos : Iterator) (value : reference T) :
  wf v -> (0 <= pos <= Z.of_N (size_ v))%Z -> (size_ v < 2 ^ 63)%N ->
  readable v value ->
  exists v1 v2,
    Insert uninit v pos value = Returns pos v1 /\
    Erase v1 pos = Returns pos v2 /\
    wf v2 /\ elements v2 = elements v /\ size_ v2 = size_ v /\
    capacity_ v2 = capacity_ v1.
Proof.
  intros Hwf Hpos Hsmall Hread. pose proof (length_elements v Hwf) as Hel.
  destruct (Insert_run uninit v pos value Hwf Hpos Hread (or_intror Hsmall))
    as (x & v1 & HI & _ & Hwf1 & He1 & Hs1 & Hc1 & _).
  destruct (Erase_run v1 pos Hwf1 ltac:(lia)) as (v2 & HE & Hwf2 & He2 & Hs2 & Hc2).
  exists v1, v2. split; [done|]. split; [done|]. split; [done|].
  split; [|split; [lia|done]].
  rewrite He2, He1. apply erase_inserted. lia.
Qed.

(** X15.  [Erase] of an element followed by [Insert], at the same
    position, of an object outside the container that holds the erased
    value gives back the elements, the size and the capacity. *)
Theorem Erase_Insert v (pos : Iterator) (value : T) :
  wf v -> (0 <= pos < Z.of_N (size_ v))%Z ->
  elements v !! Z.to_nat pos = Some value ->
  exists v1 v2,
    Erase v pos = Returns pos v1 /\
    Insert uninit v1 pos (Outside value) = Returns pos v2 /\
    wf v2 /\ elements v2 = elements v /\ size_ v2 = size_ v /\
    capacity_ v2 = capacity_ v.
Proof.
  intros Hwf Hpos Hval. pose proof Hwf as (Hsc & _).
  destruct (Erase_run v pos Hwf Hpos) as (v1 & HE & Hwf1 & He1 & Hs1 & Hc1).
  assert (0 <= pos <= Z.of_N (size_ v1))%Z as Hpos1 by lia.
  assert (size_ v1 < capacity_ v1)%N as Hroom by lia.
  destruct (Insert_run uninit v1 pos (Outside value) Hwf1 Hpos1 I (or_introl Hroom))
    as (x & v2 & HI & _ & Hwf2 & He2 & Hs2 & Hc2 & ->).
  exists v1, v2. split; [done|]. split; [done|]. split; [done|].
  split; [|split; [lia|]].
  - rewrite He2, He1. by apply insert_erased.
  - rewrite Hc2. unfold grown_capacity. rewrite (proj2 (N.eqb_neq _ _)) by lia. done.
Qed.

End SimpleVector_extra.

Section SimpleVector_extra2.
Context {T : Type}.
Variable default_value : T.
Variable uninit : N -> nat -> T.
Variable eqb : T -> T -> bool.
Variable ltb : T -> T -> bool.
Implicit Types (v this other lhs rhs : SimpleVector T).

Lemma PushBack_each_room (items : list (reference T)) : forall (values : list T) v,
  wf v -> (size_ v + N.of_nat (length items) <= capacity_ v)%N ->
  Forall2 (fun r x => referent v r = Some x) items values ->
  exists v',
    PushBack_each uninit v items = Returns tt v' /\
    wf v' /\
    elements v' = elements v ++ values /\
    size_ v' = (size_ v + N.of_nat (length items))%N /\
    capacity_ v' = capacity_ v.
Proof.
  induction items as [|item items IH]; intros values v Hwf Hroom Hrefs; simpl.
  - inversion Hrefs; subst. exists v. rewrite app_nil_r, N.add_0_r. done.
  - inversion Hrefs as [|? x ? values' Hx Hrest]; subst. simpl in Hroom.
    assert (size_ v < capacity_ v)%N as Hlt by lia.
    assert (readable v item) as Hread.
    { destruct item as [y|i]; simpl in *; [done|]. split; [done|].
      apply lookup_lt_Some in Hx. rewrite length_elements in Hx by done. lia. }
    destruct (PushBack_run uninit v item x Hwf Hread Hx (or_introl Hlt))
      as (v1 & HP & _ & Hwf1 & He1 & Hs1 & Hc1).
    assert (capacity_ v1 = capacity_ v) as Hc.
    { rewrite Hc1. unfold grown_capacity. by rewrite (proj2 (N.eqb_neq _ _)) by lia. }
    rewrite HP; simpl.
    destruct (IH values' v1 Hwf1) as (v' & HP' & Hwf' & He' & Hs' & Hc'); [lia| |].
    { eapply Forall2_impl; [exact Hrest|]. intros r y Hr.
      destruct r as [z|i]; simpl in *; [done|].
      rewrite He1. by apply lookup_app_l_Some. }
    exists v'. split; [done|]. split; [done|].
    split; [by rewrite He', He1, <- app_assoc|].
    split; [lia|congruence].
Qed.

(** X16.  After [Reserve(n)], pushing up to a total of [n] elements,
    each an object outside the container or one of the container's own
    elements, never reallocates: the capacity stays what [Reserve] made it
    and the values are appended in order. *)
Theorem Reserve_then_PushBack v (new_capacity : N)
    (items : list (reference T)) (values : list T) :
  wf v -> size_t.in_range new_capacity ->
  (size_ v + N.of_nat (length items) <= new_capacity)%N ->
  Forall2 (fun r x => referent v r = Some x) items values ->
  exists v1 v2,
    Reserve uninit v new_capacity = Returns tt v1 /\
    PushBack_each uninit v1 items = Returns tt v2 /\
    wf v2 /\
    capacity_ v1 = (capacity_ v `max` new_capacity)%N /\
    capacity_ v2 = capacity_ v1 /\
    elements v2 = elements v ++ values.
Proof.
  intros Hwf Hr Hroom Hrefs.
  destruct (Reserve_run uninit v new_capacity Hwf Hr) as (v1 & HR & Hwf1 & He1 & Hs1 & Hc1).
  destruct (PushBack_each_room items values v1 Hwf1) as (v2 & HP & Hwf2 & He2 & Hs2 & Hc2).
  { lia. }
  { eapply Forall2_impl; [exact Hrefs|]. intros r y Hry.
    destruct r as [z|i]; simpl in *; [done|]. by rewrite He1. }
  exists v1, v2. split; [done|]. split; [done|]. split; [done|].
  split; [done|]. split; [done|]. by rewrite He2, He1.
Qed.

Lemma size_of_elements v v' : wf v -> wf v' -> elements v = elements v' -> size_ v = size_ v'.
Proof.
  intros Hwf Hwf' He. apply N2Nat.inj.
  by rewrite <- (length_elements v Hwf), <- (length_elements v' Hwf'), He.
Qed.

(** X17.  The comparison operators look only at the elements in
    [begin(), end()): capacities and the contents of the slots past the
    size do not matter. *)
Theorem comparison_only_elements lhs lhs' rhs rhs' :
  wf lhs -> wf lhs' -> wf rhs -> wf rhs' ->
  elements lhs = elements lhs' -> elements rhs = elements rhs' ->
  op_eq eqb lhs rhs = op_eq eqb lhs' rhs' /\
  op_ne eqb lhs rhs = op_ne eqb lhs' rhs' /\
  op_lt ltb lhs rhs = op_lt ltb lhs' rhs' /\
  op_le ltb lhs rhs = op_le ltb lhs' rhs' /\
  op_gt ltb lhs rhs = op_gt ltb lhs' rhs' /\
  op_ge ltb lhs rhs = op_ge ltb lhs' rhs'.
Proof.
  intros Hl Hl' Hr Hr' Hel Her.
  pose proof (wf_size_le_length _ Hl) as Hll. pose proof (wf_size_le_length _ Hl') as Hll'.
  pose proof (wf_size_le_length _ Hr) as Hlr. pose proof (wf_size_le_length _ Hr') as Hlr'.
  assert (op_eq eqb lhs rhs = op_eq eqb lhs' rhs') as Heq.
  { destruct (op_eq_spec eqb lhs rhs Hll Hlr) as (r & -> & Hiff).
    destruct (op_eq_spec eqb lhs' rhs' Hll' Hlr') as (r' & -> & Hiff').
    f_equal. apply eq_true_iff_eq. rewrite Hiff, Hiff', Hel, Her.
    by rewrite (size_of_elements lhs lhs'), (size_of_elements rhs rhs'). }
  assert (forall a a' b b', wf a -> wf a' -> wf b -> wf b' ->
            elements a = elements a' -> elements b = elements b' ->
            op_lt ltb a b = op_lt ltb a' b') as Hlt.
  { intros a a' b b' Ha Ha' Hb Hb' Hea Heb.
    destruct (op_lt_spec ltb a b (wf_size_le_length _ Ha) (wf_size_le_length _ Hb))
      as (r & -> & Hiff).
    destruct (op_lt_spec ltb a' b' (wf_size_le_length _ Ha') (wf_size_le_length _ Hb'))
      as (r' & -> & Hiff').
    f_equal. apply eq_true_iff_eq. by rewrite Hiff, Hiff', Hea, Heb. }
  unfold op_ne, op_le, op_gt, op_ge.
  rewrite Heq, (Hlt lhs lhs' rhs rhs'), (Hlt rhs rhs' lhs lhs') by done. done.
Qed.

(** X18.  A copy compares equal to the container it was copied from,
    although its capacity may differ, when the element equality is
    reflexive. *)
Theorem copy_equals_original other :
  wf other -> (forall x, eqb x x = true) ->
  exists c,
    SimpleVector_copy default_value uninit other = Returns tt c /\
    op_eq eqb c other = Some true /\
    op_eq eqb other c = Some true /\
    op_ne eqb c other = Some false.
Proof.
  intros Hwf Hrefl. pose proof (wf_size_le_length _ Hwf) as Hlen.
  pose proof (length_elements other Hwf) as Hel.
  rewrite SimpleVector_copy_spec by done. eexists. split; [reflexivity|].
  set (c := MkSimpleVector (elements other) (size_ other) (size_ other)).
  assert (elements c = elements other) as Hec by (apply elements_full; lia).
  assert (N.to_nat (size_ c) <= length (items_ c))%nat as Hlc by (simpl; lia).
  assert (op_eq eqb c other = Some true) as H1.
  { destruct (op_eq_spec eqb c other Hlc Hlen) as (r & -> & Hiff). f_equal.
    apply Hiff. split; [done|]. rewrite Hec. by apply Forall2_eqb_refl. }
  split; [done|]. split; [|unfold op_ne; by rewrite H1].
  destruct (op_eq_spec eqb other c Hlen Hlc) as (r & -> & Hiff). f_equal.
  apply Hiff. split; [done|]. rewrite Hec. by apply Forall2_eqb_refl.
Qed.

(** X19.  When the element order is irreflexive, transitive and total,
    [operator<] on containers is irreflexive, asymmetric and
    transitive. *)
Theorem op_lt_strict_order a b c :
  wf a -> wf b -> wf c ->
  (forall x, ltb x x = false) ->
  (forall x y z, ltb x y = true -> ltb y z = true -> ltb x z = true) ->
  (forall x y, ltb x y = false -> ltb y x = false -> x = y) ->
  op_lt ltb a a = Some false /\
  (op_lt ltb a b = Some true -> op_lt ltb b a = Some false) /\
  (op_lt ltb a b = Some true -> op_lt ltb b c = Some true -> op_lt ltb a c = Some true).
Proof.
  intros Ha Hb Hc Hirr Htrans Hconn.
  pose proof (wf_size_le_length _ Ha) as Hla.
  pose proof (wf_size_le_length _ Hb) as Hlb.
  pose proof (wf_size_le_length _ Hc) as Hlc.
  destruct (op_lt_spec ltb a a Hla Hla) as (raa & Haa & Iaa).
  destruct (op_lt_spec ltb a b Hla Hlb) as (rab & Hab & Iab).
  destruct (op_lt_spec ltb b a Hlb Hla) as (rba & Hba & Iba).
  destruct (op_lt_spec ltb b c Hlb Hlc) as (rbc & Hbc & Ibc).
  destruct (op_lt_spec ltb a c Hla Hlc) as (rac & Hac & Iac).
  rewrite Haa, Hab, Hba, Hbc, Hac.
  split; [|split].
  - f_equal. destruct raa; [|done]. exfalso.
    apply (lex_less_irrefl ltb (elements a) Hirr). by apply Iaa.
  - intros [= ->]. f_equal. destruct rba; [|done]. exfalso.
    apply (lex_less_irrefl ltb (elements a) Hirr).
    apply (lex_less_trans ltb _ (elements b)); try done; [by apply Iab|by apply Iba].
  - intros [= ->] [= ->]. f_equal. apply Iac.
    apply (lex_less_trans ltb _ (elements b)); try done; [by apply Iab|by apply Ibc].
Qed.

(** X20.  When two elements are [==] exactly when neither is [<] the
    other, two containers are [==] exactly when neither is [<] the
    other. *)
Theorem op_eq_neither_less a b :
  wf a -> wf b ->
  (forall x y, eqb x y = negb (ltb x y || ltb y x)) ->
  exists eq lt gt : bool,
    op_eq eqb a b = Some eq /\ op_lt ltb a b = Some lt /\ op_lt ltb b a = Some gt /\
    eq = negb (lt || gt).
Proof.
  intros Ha Hb Hcompat.
  pose proof (wf_size_le_length _ Ha) as Hla.
  pose proof (wf_size_le_length _ Hb) as Hlb.
  destruct (op_eq_spec eqb a b Hla Hlb) as (eq & Heq & Ieq).
  destruct (op_lt_spec ltb a b Hla Hlb) as (lt & Hlt & Ilt).
  destruct (op_lt_spec ltb b a Hlb Hla) as (gt & Hgt & Igt).
  exists eq, lt, gt. split; [done|]. split; [done|]. split; [done|].
  apply eq_true_iff_eq. rewrite Ieq, negb_true_iff, orb_false_iff.
  rewrite (Forall2_eqb_neither_less eqb ltb _ _ Hcompat).
  rewrite <- !not_true_iff_false, Ilt, Igt. split; [by intros [_ H]|].
  intros H. split; [|done]. apply N2Nat.inj.
  rewrite <- (length_elements a Ha), <- (length_elements b Hb).
  apply (Forall2_length (fun x y => eqb x y = true)).
  by apply (Forall2_eqb_neither_less eqb ltb _ _ Hcompat).
Qed.

(** X21.  [Erase] at the last element does what [PopBack] does: the two
    calls leave the same object, and [Erase] returns its [end()]. *)
Theorem Erase_last_PopBack v :
  wf v -> (0 < size_ v)%N ->
  exists v',
    PopBack v = Returns tt v' /\
    Erase v (end_ v - 1)%Z = Returns (end_ v') v'.
Proof.
  intros Hwf Hpos. pose proof Hwf as (Hsc & Hl & Hr). unfold size_t.in_range in Hr.
  unfold PopBack, IsEmpty, Erase. rewrite (proj2 (N.eqb_neq _ _)) by lia. simpl.
  rewrite bool_decide_true by (unfold begin, end_; lia).
  unfold begin. rewrite Z.add_0_l, Z.sub_0_r, to_nat_end.
  replace (Z.to_nat (end_ v - 1 + 1)) with (N.to_nat (size_ v)) by (unfold end_; lia).
  rewrite move_within_spec by (unfold end_; lia).
  rewrite Nat.sub_diag, take_0, app_nil_l, Nat.add_0_r, take_drop. simpl.
  rewrite decr_pos by lia.
  eexists. split; [reflexivity|]. f_equal. unfold end_; simpl. lia.
Qed.

(** X22.  [Erase] accepts every position on a well-formed container: it
    returns the iterator at the offset it was given, never grows the size,
    keeps the capacity and leaves a well-formed container. *)
Theorem Erase_any_position v (pos : Iterator) :
  wf v ->
  exists v',
    Erase v pos = Returns pos v' /\
    wf v' /\ capacity_ v' = capacity_ v /\
    (if bool_decide (0 <= pos < Z.of_N (size_ v))%Z
     then size_ v' = (size_ v - 1)%N
     else v' = v).
Proof.
  intros Hwf. case_bool_decide as Hin.
  - destruct (Erase_run v pos Hwf Hin) as (v' & HE & Hwf' & _ & Hs & Hc).
    exists v'. split; [done|]. split; [done|]. split; [done|done].
  - exists v. split; [|split; [done|split; [done|done]]].
    unfold Erase. rewrite bool_decide_false by (unfold begin, end_; lia).
    simpl. unfold begin. f_equal. lia.
Qed.

End SimpleVector_extra2.

(** * The further facts at concrete containers *)

Lemma in_range_small (n : N) : (n < 100)%N -> size_t.in_range n.
Proof. unfold size_t.in_range, size_t.modulus. lia. Defined.

Lemma SimpleVector_sized_elements_witness :
  size_t.in_range 3 /\
  exists v,
    SimpleVector_sized 0%Z example_uninit 3 = Returns tt v /\
    elements v = [0; 0; 0]%Z /\ capacity_ v = 3%N.
Proof.
  assert (size_t.in_range 3) as Hr by (apply in_range_small; lia).
  split; [exact Hr|].
  destruct (SimpleVector_sized_elements 0%Z example_uninit 3 Hr)
    as (v & HS & _ & _ & Hc & He).
  exists v. split; [exact HS|]. split; [exact He|exact Hc].
Defined.

Lemma SimpleVector_filled_elements_witness :
  size_t.in_range 2 /\
  exists v,
    SimpleVector_filled example_uninit 2 9%Z = Returns tt v /\
    elements v = [9; 9]%Z /\ capacity_ v = 2%N.
Proof.
  assert (size_t.in_range 2) as Hr by (apply in_range_small; lia).
  split; [exact Hr|].
  destruct (SimpleVector_filled_elements example_uninit 2 9%Z Hr)
    as (v & HS & _ & _ & Hc & He).
  exists v. split; [exact HS|]. split; [exact He|exact Hc].
Defined.

Lemma SimpleVector_init_elements_witness :
  size_t.in_range (N.of_nat (length [1; 2; 3]%Z)) /\
  exists v,
    SimpleVector_init example_uninit [1; 2; 3]%Z = Returns tt v /\
    elements v = [1; 2; 3]%Z /\ size_ v = 3%N /\ capacity_ v = 3%N.
Proof.
  assert (size_t.in_range (N.of_nat (length [1; 2; 3]%Z))) as Hr
    by (apply in_range_small; simpl; lia).
  split; [exact Hr|].
  destruct (SimpleVector_init_elements example_uninit [1; 2; 3]%Z Hr)
    as (v & HS & _ & Hs & Hc & He).
  exists v. split; [exact HS|]. split; [exact He|]. split; [exact Hs|exact Hc].
Defined.

Lemma SimpleVector_reserved_empty_witness :
  size_t.in_range 5 /\
  exists v,
    SimpleVector_reserved example_uninit (Reserve_proxy 5) = Returns tt v /\
    size_ v = 0%N /\ capacity_ v = 5%N /\ elements v = [].
Proof.
  assert (size_t.in_range 5) as Hr by (apply in_range_small; lia).
  split; [exact Hr|].
  destruct (SimpleVector_reserved_empty example_uninit 5 Hr)
    as (v & HS & _ & Hs & Hc & He & _).
  exists v. split; [exact HS|]. split; [exact Hs|]. split; [exact Hc|exact He].
Defined.

Lemma Clear_empties_witness :
  wf example_vector /\
  exists v',
    Clear example_vector = Returns tt v' /\
    capacity_ v' = 4%N /\ elements v' = [] /\
    At v' 0 = Throws (out_of_range "index >= size") v'.
Proof.
  split; [exact wf_example_vector|].
  destruct (Clear_empties example_vector wf_example_vector)
    as (v' & HC & _ & _ & Hc & _ & He & HA).
  exists v'. split; [exact HC|]. split; [exact Hc|]. split; [exact He|exact (HA 0%N)].
Defined.

Lemma Resize_shrink_witness :
  wf example_full /\ (1 <= size_ example_full)%N /\
  exists v',
    Resize 0%Z example_uninit example_full 1 = Returns tt v' /\
    elements v' = [1]%Z /\ capacity_ v' = 3%N.
Proof.
  assert (1 <= size_ example_full)%N as Hle by (simpl; lia).
  split; [exact wf_example_full|]. split; [exact Hle|].
  destruct (Resize_shrink 0%Z example_uninit example_full 1 wf_example_full Hle)
    as (v' & HR & _ & _ & Hc & _ & He).
  exists v'. split; [exact HR|]. split; [exact He|exact Hc].
Defined.

Lemma Resize_beyond_capacity_witness :
  wf example_vector /\ (capacity_ example_vector < 5)%N /\ (5 < 2 ^ 63)%N /\
  exists v',
    Resize 0%Z example_uninit example_vector 5 = Returns tt v' /\
    capacity_ v' = 10%N /\
    elements v' !! 1%nat = Some 8%Z /\
    elements v' !! 3%nat = Some (-1)%Z.
Proof.
  assert (capacity_ example_vector < 5)%N as Hlt by (simpl; lia).
  assert (5 < 2 ^ 63)%N as Hsmall by lia.
  split; [exact wf_example_vector|]. split; [exact Hlt|]. split; [exact Hsmall|].
  destruct (Resize_beyond_capacity 0%Z example_uninit example_vector 5
              wf_example_vector Hlt Hsmall) as (v' & HR & _ & _ & Hc & Hold & Hnew).
  exists v'. split; [exact HR|]. split; [exact Hc|]. split.
  - rewrite (Hold 1%nat) by (vm_compute; lia). reflexivity.
  - rewrite (Hnew 3%nat) by (vm_compute; lia). reflexivity.
Defined.

Lemma Resize_capacity_wraps_witness :
  wf (@SimpleVector_default Z) /\
  (capacity_ (@SimpleVector_default Z) < 2 ^ 63)%N /\
  (2 ^ 63 <= 2 ^ 63)%N /\ (2 ^ 63 < 2 ^ 64)%N /\
  exists v',
    Resize 0%Z example_uninit SimpleVector_default (2 ^ 63) = Returns tt v' /\
    size_ v' = (2 ^ 63)%N /\ capacity_ v' = 0%N.
Proof.
  assert (capacity_ (@SimpleVector_default Z) < 2 ^ 63)%N as Hlt by (simpl; lia).
  assert (2 ^ 63 <= 2 ^ 63)%N as Hbig by lia.
  assert (2 ^ 63 < 2 ^ 64)%N as Hrange by lia.
  split; [exact wf_default|]. split; [exact Hlt|]. split; [exact Hbig|].
  split; [exact Hrange|].
  destruct (Resize_capacity_wraps 0%Z example_uninit SimpleVector_default (2 ^ 63)
              wf_default Hlt Hbig Hrange) as [Hfit _].
  destruct Hfit as (v' & HR & Hs & Hc & _); [simpl; lia|].
  exists v'. split; [exact HR|]. split; [exact Hs|]. rewrite Hc. reflexivity.
Defined.

Lemma Resize_Resize_witness :
  wf example_vector /\ (3 < 2 ^ 63)%N /\ (1 <= 3)%N /\
  exists v' v'',
    Resize 0%Z example_uninit example_vector 3 = Returns tt v' /\
    Resize 0%Z example_uninit v' 1 = Returns tt v'' /\
    size_ v'' = 1%N /\ elements v'' !! 0%nat = Some 7%Z.
Proof.
  assert (3 < 2 ^ 63)%N as Hn by lia.
  assert (1 <= 3)%N as Hm by lia.
  split; [exact wf_example_vector|]. split; [exact Hn|]. split; [exact Hm|].
  destruct (Resize_Resize 0%Z example_uninit example_vector 3 1 wf_example_vector Hn Hm)
    as (v' & v'' & HR1 & HR2 & _ & Hs & _ & He).
  exists v', v''. split; [exact HR1|]. split; [exact HR2|]. split; [exact Hs|].
  rewrite (He 0%nat) by (vm_compute; lia). reflexivity.
Defined.

Lemma PopBack_nonempty_witness :
  wf example_full /\ (0 < size_ example_full)%N /\
  exists v',
    PopBack example_full = Returns tt v' /\
    elements v' = [1; 2]%Z /\ size_ v' = 2%N /\ capacity_ v' = 3%N.
Proof.
  assert (0 < size_ example_full)%N as Hpos by (simpl; lia).
  split; [exact wf_example_full|]. split; [exact Hpos|].
  destruct (PopBack_nonempty example_full wf_example_full Hpos)
    as (v' & last & HP & _ & _ & Hc & Hs & He).
  exists v'. split; [exact HP|]. split; [|split; [exact Hs|exact Hc]].
  change (elements example_full) with ([1; 2] ++ [3])%Z in He.
  apply app_inj_tail in He. destruct He as [He _]. symmetry. exact He.
Defined.

Lemma readable_example_vector_Slot_1 : readable example_vector (Slot 1).
Proof. simpl. split; [lia|vm_compute; lia]. Defined.

Lemma PushBack_PopBack_witness :
  wf example_vector /\ (size_ example_vector < 2 ^ 63)%N /\
  readable example_vector (Slot 1) /\
  exists v1 v2,
    PushBack example_uninit example_vector (Slot 1) = Returns tt v1 /\
    PopBack v1 = Returns tt v2 /\
    elements v2 = [7; 8]%Z /\ size_ v2 = 2%N.
Proof.
  assert (size_ example_vector < 2 ^ 63)%N as Hsmall by (simpl; lia).
  split; [exact wf_example_vector|]. split; [exact Hsmall|].
  split; [exact readable_example_vector_Slot_1|].
  destruct (PushBack_PopBack example_uninit example_vector (Slot 1) wf_example_vector
              Hsmall readable_example_vector_Slot_1)
    as (v1 & v2 & HP & HQ & _ & He & Hs & _).
  exists v1, v2. split; [exact HP|]. split; [exact HQ|]. split; [exact He|exact Hs].
Defined.

Lemma PushBack_At_witness :
  wf example_vector /\ (size_ example_vector < 2 ^ 63)%N /\
  readable example_vector (Slot 1) /\
  referent example_vector (Slot 1) = Some 8%Z /\
  exists v1,
    PushBack example_uninit example_vector (Slot 1) = Returns tt v1 /\
    At v1 2 = Returns 8%Z v1 /\
    At v1 0 = Returns 7%Z v1.
Proof.
  assert (size_ example_vector < 2 ^ 63)%N as Hsmall by (simpl; lia).
  assert (referent example_vector (Slot 1) = Some 8%Z) as Hx by reflexivity.
  split; [exact wf_example_vector|]. split; [exact Hsmall|].
  split; [exact readable_example_vector_Slot_1|]. split; [exact Hx|].
  destruct (PushBack_At example_uninit example_vector (Slot 1) 8%Z wf_example_vector
              Hsmall readable_example_vector_Slot_1 Hx)
    as (v1 & HP & _ & Hnew & Hold).
  exists v1. split; [exact HP|]. split; [exact Hnew|].
  apply Hold. reflexivity.
Defined.

Lemma Insert_at_end_witness :
  wf example_full /\ (size_ example_full < 2 ^ 63)%N /\
  PushBack example_uninit example_full (Slot 0) = Undefined /\
  Insert example_uninit example_full (end_ example_full) (Slot 0) = Undefined /\
  exists v'',
    Insert example_uninit example_full (end_ example_full) (Outside 4%Z) =
      Returns (end_ v'' - 1)%Z v'' /\
    elements v'' = [1; 2; 3; 4]%Z.
Proof.
  assert (size_ example_full < 2 ^ 63)%N as Hsmall by (simpl; lia).
  split; [exact wf_example_full|]. split; [exact Hsmall|].
  destruct (Insert_at_end example_uninit example_full (Slot 0) wf_example_full Hsmall)
    as [Hundef _].
  destruct (Insert_at_end example_uninit example_full (Outside 4%Z) wf_example_full Hsmall)
    as [_ Hret].
  assert (PushBack example_uninit example_full (Slot 0) = Undefined) as HU by reflexivity.
  split; [exact HU|]. split; [exact (proj1 Hundef HU)|].
  destruct (Hret (MkSimpleVector [1; 2; 3; 4; -1; -1]%Z 4 6) eq_refl)
    as (v'' & HI & He & _).
  exists v''. split; [exact HI|]. rewrite He. reflexivity.
Defined.

Lemma Insert_Erase_witness :
  wf example_vector /\ (0 <= 0 <= Z.of_N (size_ example_vector))%Z /\
  (size_ example_vector < 2 ^ 63)%N /\ readable example_vector (Slot 1) /\
  exists v1 v2,
    Insert example_uninit example_vector 0%Z (Slot 1) = Returns 0%Z v1 /\
    Erase v1 0%Z = Returns 0%Z v2 /\
    elements v2 = [7; 8]%Z /\ size_ v2 = 2%N.
Proof.
  assert (0 <= 0 <= Z.of_N (size_ example_vector))%Z as Hpos by (simpl; lia).
  assert (size_ example_vector < 2 ^ 63)%N as Hsmall by (simpl; lia).
  split; [exact wf_example_vector|]. split; [exact Hpos|]. split; [exact Hsmall|].
  split; [exact readable_example_vector_Slot_1|].
  destruct (Insert_Erase example_uninit example_vector 0%Z (Slot 1) wf_example_vector
              Hpos Hsmall readable_example_vector_Slot_1)
    as (v1 & v2 & HI & HE & _ & He & Hs & _).
  exists v1, v2. split; [exact HI|]. split; [exact HE|]. split; [exact He|exact Hs].
Defined.

Lemma Erase_Insert_witness :
  wf example_full /\ (0 <= 1 < Z.of_N (size_ example_full))%Z /\
  elements example_full !! Z.to_nat 1 = Some 2%Z /\
  exists v1 v2,
    Erase example_full 1%Z = Returns 1%Z v1 /\
    Insert example_uninit v1 1%Z (Outside 2%Z) = Returns 1%Z v2 /\
    elements v2 = [1; 2; 3]%Z /\ capacity_ v2 = 3%N.
Proof.
  assert (0 <= 1 < Z.of_N (size_ example_full))%Z as Hpos by (simpl; lia).
  assert (elements example_full !! Z.to_nat 1 = Some 2%Z) as Hval by reflexivity.
  split; [exact wf_example_full|]. split; [exact Hpos|]. split; [exact Hval|].
  destruct (Erase_Insert example_uninit example_full 1%Z 2%Z wf_example_full Hpos Hval)
    as (v1 & v2 & HE & HI & _ & He & _ & Hc).
  exists v1, v2. split; [exact HE|]. split; [exact HI|]. split; [exact He|exact Hc].
Defined.

Lemma Reserve_then_PushBack_witness :
  wf example_vector /\ size_t.in_range 6 /\
  (size_ example_vector + N.of_nat (length [Outside 1; Slot 0; Outside 3; Slot 1]%Z) <= 6)%N /\
  Forall2 (fun r x => referent example_vector r = Some x)
    [Outside 1; Slot 0; Outside 3; Slot 1]%Z [1; 7; 3; 8]%Z /\
  exists v1 v2,
    Reserve example_uninit example_vector 6 = Returns tt v1 /\
    PushBack_each example_uninit v1 [Outside 1; Slot 0; Outside 3; Slot 1]%Z =
      Returns tt v2 /\
    capacity_ v1 = 6%N /\ capacity_ v2 = 6%N /\
    elements v2 = [7; 8; 1; 7; 3; 8]%Z.
Proof.
  assert (size_t.in_range 6) as Hr by (apply in_range_small; lia).
  assert (size_ example_vector +
          N.of_nat (length [Outside 1; Slot 0; Outside 3; Slot 1]%Z) <= 6)%N as Hroom
    by (simpl; lia).
  assert (Forall2 (fun r x => referent example_vector r = Some x)
            [Outside 1; Slot 0; Outside 3; Slot 1]%Z [1; 7; 3; 8]%Z) as Hrefs
    by (repeat constructor).
  split; [exact wf_example_vector|]. split; [exact Hr|]. split; [exact Hroom|].
  split; [exact Hrefs|].
  destruct (Reserve_then_PushBack example_uninit example_vector 6
              [Outside 1; Slot 0; Outside 3; Slot 1]%Z [1; 7; 3; 8]%Z
              wf_example_vector Hr Hroom Hrefs) as (v1 & v2 & HR & HP & _ & Hc1 & Hc2 & He).
  exists v1, v2. split; [exact HR|]. split; [exact HP|].
  split; [exact Hc1|]. split; [rewrite Hc2; exact Hc1|exact He].
Defined.

Lemma comparison_only_elements_witness :
  wf example_vector /\ wf (MkSimpleVector [7; 8]%Z 2 2) /\ wf example_full /\
  elements example_vector = elements (MkSimpleVector [7; 8]%Z 2 2) /\
  op_eq Z.eqb example_vector example_full =
    op_eq Z.eqb (MkSimpleVector [7; 8]%Z 2 2) example_full /\
  op_lt Z.ltb example_vector example_full =
    op_lt Z.ltb (MkSimpleVector [7; 8]%Z 2 2) example_full.
Proof.
  assert (wf (MkSimpleVector [7; 8]%Z 2 2)) as Hwf
    by (unfold wf, size_t.in_range, size_t.modulus; simpl; repeat split; lia).
  assert (elements example_vector = elements (MkSimpleVector [7; 8]%Z 2 2)) as He
    by reflexivity.
  split; [exact wf_example_vector|]. split; [exact Hwf|]. split; [exact wf_example_full|].
  split; [exact He|].
  destruct (comparison_only_elements Z.eqb Z.ltb example_vector (MkSimpleVector [7; 8]%Z 2 2)
              example_full example_full wf_example_vector Hwf wf_example_full
              wf_example_full He eq_refl) as (Heq & _ & Hlt & _).
  split; [exact Heq|exact Hlt].
Defined.

Lemma copy_equals_original_witness :
  wf example_vector /\ (forall x, Z.eqb x x = true) /\
  exists c,
    SimpleVector_copy 0%Z example_uninit example_vector = Returns tt c /\
    capacity_ c <> capacity_ example_vector /\
    op_eq Z.eqb c example_vector = Some true.
Proof.
  split; [exact wf_example_vector|]. split; [exact Z.eqb_refl|].
  destruct (copy_equals_original 0%Z example_uninit Z.eqb example_vector
              wf_example_vector Z.eqb_refl) as (c & HC & Heq & _).
  exists c. split; [exact HC|]. split; [|exact Heq].
  vm_compute in HC. injection HC as <-. discriminate.
Defined.

Lemma Zltb_trans (x y z : Z) : Z.ltb x y = true -> Z.ltb y z = true -> Z.ltb x z = true.
Proof. rewrite !Z.ltb_lt. lia. Defined.

Lemma Zltb_connected (x y : Z) : Z.ltb x y = false -> Z.ltb y x = false -> x = y.
Proof. rewrite !Z.ltb_ge. lia. Defined.

Lemma Zeqb_neither_less (x y : Z) : Z.eqb x y = negb (Z.ltb x y || Z.ltb y x).
Proof.
  destruct (Z.eqb_spec x y), (Z.ltb_spec x y), (Z.ltb_spec y x); simpl; try reflexivity; lia.
Defined.

Lemma op_lt_strict_order_witness :
  wf example_full /\ wf example_vector /\
  (forall x, Z.ltb x x = false) /\
  op_lt Z.ltb example_full example_full = Some false /\
  op_lt Z.ltb example_vector example_full = Some false.
Proof.
  split; [exact wf_example_full|]. split; [exact wf_example_vector|].
  split; [exact Z.ltb_irrefl|].
  destruct (op_lt_strict_order Z.ltb example_full example_vector example_full
              wf_example_full wf_example_vector wf_example_full
              Z.ltb_irrefl Zltb_trans Zltb_connected) as (Hirr & Hasym & _).
  split; [exact Hirr|]. apply Hasym. reflexivity.
Defined.

Lemma op_eq_neither_less_witness :
  wf example_full /\ wf example_vector /\
  exists eq lt gt : bool,
    op_eq Z.eqb example_full example_vector = Some eq /\
    op_lt Z.ltb example_full example_vector = Some lt /\
    op_lt Z.ltb example_vector example_full = Some gt /\
    eq = negb (lt || gt).
Proof.
  split; [exact wf_example_full|]. split; [exact wf_example_vector|].
  exact (op_eq_neither_less Z.eqb Z.ltb example_full example_vector
           wf_example_full wf_example_vector Zeqb_neither_less).
Defined.

Lemma Erase_last_PopBack_witness :
  wf example_full /\ (0 < size_ example_full)%N /\
  exists v',
    PopBack example_full = Returns tt v' /\
    Erase example_full 2%Z = Returns 2%Z v'.
Proof.
  assert (0 < size_ example_full)%N as Hpos by (simpl; lia).
  split; [exact wf_example_full|]. split; [exact Hpos|].
  destruct (Erase_last_PopBack example_full wf_example_full Hpos) as (v' & HP & HE).
  exists v'. split; [exact HP|].
  assert (end_ v' = 2%Z) as Hend by (vm_compute in HP; injection HP as <-; reflexivity).
  rewrite Hend in HE. exact HE.
Defined.

Lemma Erase_any_position_witness :
  wf example_vector /\
  Erase example_vector 3%Z = Returns 3%Z example_vector /\
  exists v', Erase example_vector 0%Z = Returns 0%Z v' /\ size_ v' = 1%N.
Proof.
  split; [exact wf_example_vector|].
  destruct (Erase_any_position example_vector 3%Z wf_example_vector)
    as (v3 & HE3 & _ & _ & Hsame).
  destruct (Erase_any_position example_vector 0%Z wf_example_vector)
    as (v0 & HE0 & _ & _ & Hless).
  rewrite bool_decide_false in Hsame by (simpl; lia).
  rewrite bool_decide_true in Hless by (simpl; lia).
  split; [rewrite <- Hsame at 2; exact HE3|].
  exists v0. split; [exact HE0|exact Hless].
Defined.
